(** * tinyhttp [App.handler]: the per-request dispatch of packages/app/src/app.ts

    A shallow embedding of [lead], [applyHandler] and [App.handler] (with its
    closures [nextWithReqAndRes], [handle] and [loop]), followed by the
    properties of the dispatch engine.

    Conventions of the embedding.
    - A request is dispatched by one call of [handler]; the variables that the
      closures of that call capture ([mw], [len], [idx], [this.onError]) and
      the two objects they share ([req], [res]) are the fields of [Dispatch].
    - Calls to collaborators are recorded in an append-only [trace].
    - Handlers are user code.  A handler body is a tree of the effects the
      dispatcher can observe ([prog]); [PRead] lets the body depend on the
      request and response as they are when it gets there.
    - Code that runs in a later turn of the event loop (after an [await], in a
      timer callback, in the [catch] of [applyHandler]) is queued in
      [pending]; [run_schedule] runs queued tasks in any chosen order. *)

From Stdlib Require Import String Ascii List Bool Arith ZArith Lia Sorted.
Import ListNotations.
Local Open Scope string_scope.
Local Open Scope list_scope.

(** ** JavaScript values passed as errors *)

(** [next(err)] takes [any]; what matters to the dispatcher is whether the
    value is truthy.  [JObj c] is an object (always truthy) whose [code]
    property is [c], as in [{ code: 404 }]. *)
Inductive JsVal : Type :=
| JUndefined
| JNull
| JBool (b : bool)
| JNum (n : Z)
| JStr (s : string)
| JObj (code : option Z).

Definition truthy (v : JsVal) : bool :=
  match v with
  | JUndefined | JNull => false
  | JBool b => b
  | JNum n => negb (n =? 0)%Z
  | JStr s => negb (s =? "")
  | JObj _ => true
  end.

(** ** Strings *)

(** [x.substring(n)] for [0 <= n]. *)
Fixpoint substring_from (n : nat) (s : string) : string :=
  match n, s with
  | O, _ => s
  | S n', EmptyString => EmptyString
  | S n', String _ s' => substring_from n' s'
  end.

(** [s.startsWith(p)]. *)
Definition startsWith (s p : string) : bool := String.prefix p s.

(** [lead]: add a leading slash if not present (char code 47 is "/"). *)
Definition lead (x : string) : string :=
  match x with
  | String c _ => if (nat_of_ascii c =? 47)%nat then x else "/" ++ x
  | EmptyString => "/" ++ x
  end.

(** [lead(url.substring(path.length)) || '/']. *)
Definition strip_prefix (url path : string) : string :=
  let s := lead (substring_from (String.length path) url) in
  if s =? "" then "/" else s.

(** ** Requests, responses, entries *)

Record Req : Type := mkReq {
  url : string;
  originalUrl : option string;
  path : option string;
  method : string;
  params : list (string * string)
}.

Record Res : Type := mkRes {
  writableEnded : bool;
  statusCode : Z;
  headers : list (string * string)
}.

(** What a handler body can do that the dispatcher observes. *)
Inductive prog : Type :=
| PRet                                  (* the body returns *)
| PThrow (e : JsVal)                    (* throw e *)
| PEnd (k : prog)                       (* res.end(); k *)
| PNext (err : JsVal) (k : prog)        (* next(err); k   (next() is next(undefined)) *)
| PLater (k : prog)                     (* k runs in a later turn (await, timer) *)
| PRead (f : Req -> Res -> prog).       (* branch on the current req and res *)

(** [UserHandler a b]: a function whose [Symbol.toStringTag] is
    ['AsyncFunction'] iff [a].  [BoundOnError e] is [this.onError.bind(null, e)]. *)
Inductive Handler : Type :=
| UserHandler (isAsync : bool) (body : prog)
| BoundOnError (e : JsVal).

Inductive MwType : Type := TMw | TRoute.

Record Middleware : Type := mkMiddleware {
  mpath : string;
  mmethod : option string;
  mhandler : Handler;
  mtype : MwType
}.

(** [ErrorHandler]: [(err, req, res) => void]; its effect on the response. *)
Definition ErrorHandler : Type := JsVal -> Req -> Res -> Res.

Inductive Event : Type :=
| EvDelegate (mount : string)
| EvExtend (i : nat)                                (* context extension, entry i *)
| EvHandler (i : nat)                               (* the handler of mw[i] is called *)
| EvErrorSink (e : JsVal) (rq : Req) (rs : Res)     (* this.onError(e, req, res) *)
| EvUnhandled (e : JsVal).                          (* a rejection nobody catches *)

(** Code queued for a later turn of the event loop. *)
Inductive task : Type :=
| TResume (async : bool) (k : prog)   (* the rest of a handler body *)
| TCatch (e : JsVal).                 (* catch (e) { next(e) } of applyHandler *)

Record Dispatch : Type := mkDispatch {
  req : Req;
  res : Res;
  mw : list Middleware;
  len : nat;
  idx : nat;
  onErr : ErrorHandler;
  trace : list Event;
  pending : list task
}.

(** ** Collaborators outside app.ts *)

(** The functions app.ts imports and calls: [parse(x).pathname] from 'url',
    [matchLoose], [matchParams] composed with [runRegex], and [getURLParams]
    from the request packages, and the default [onErrorHandler].  The
    development is parametric in them. *)
Record Collab : Type := mkCollab {
  pathname_of : string -> string;
  matchLoose : string -> string -> bool;
  matchParams : string -> string -> bool;
  getURLParams : string -> string -> list (string * string);
  onErrorHandler : ErrorHandler
}.

(** ** Field updates *)

Definition set_req (r : Req) (st : Dispatch) : Dispatch :=
  mkDispatch r (res st) (mw st) (len st) (idx st) (onErr st) (trace st) (pending st).

Definition set_res (r : Res) (st : Dispatch) : Dispatch :=
  mkDispatch (req st) r (mw st) (len st) (idx st) (onErr st) (trace st) (pending st).

Definition set_idx (i : nat) (st : Dispatch) : Dispatch :=
  mkDispatch (req st) (res st) (mw st) (len st) i (onErr st) (trace st) (pending st).

Definition log (e : Event) (st : Dispatch) : Dispatch :=
  mkDispatch (req st) (res st) (mw st) (len st) (idx st) (onErr st)
             (trace st ++ [e]) (pending st).

Definition enqueue (t : task) (st : Dispatch) : Dispatch :=
  mkDispatch (req st) (res st) (mw st) (len st) (idx st) (onErr st)
             (trace st) (pending st ++ [t]).

Definition set_pending (p : list task) (st : Dispatch) : Dispatch :=
  mkDispatch (req st) (res st) (mw st) (len st) (idx st) (onErr st) (trace st) p.

Definition set_url (u : string) (r : Req) : Req :=
  mkReq u (originalUrl r) (path r) (method r) (params r).

Definition set_params (p : list (string * string)) (r : Req) : Req :=
  mkReq (url r) (originalUrl r) (path r) (method r) p.

(** [res.end()]. *)
Definition end_res (r : Res) : Res := mkRes true (statusCode r) (headers r).

Definition set_status (c : Z) (r : Res) : Res :=
  mkRes (writableEnded r) c (headers r).

(** Header names are compared without regard to case. *)
Definition lower_ascii (c : ascii) : ascii :=
  let n := nat_of_ascii c in
  if (65 <=? n)%nat && (n <=? 90)%nat then ascii_of_nat (n + 32) else c.

Fixpoint lower (s : string) : string :=
  match s with
  | EmptyString => EmptyString
  | String c s' => String (lower_ascii c) (lower s')
  end.

Definition same_header (a b : string) : bool := lower a =? lower b.

(** [res.setHeader(name, value)] on a response whose headers are not sent
    yet: the header takes the place of the header of the same name, or goes
    last if there is none.  Once the headers
    are sent, which is always so when the response is finished, Node's
    [setHeader] throws instead; that call is outside this definition, and the
    statements that go through the X-Powered-By step of [handler] take a
    response that is not finished. *)
Fixpoint set_header (name value : string) (l : list (string * string))
    : list (string * string) :=
  match l with
  | [] => [(name, value)]
  | (k, v) :: l' =>
      if same_header k name then (name, value) :: l'
      else (k, v) :: set_header name value l'
  end.

Definition setHeader (name value : string) (r : Res) : Res :=
  mkRes (writableEnded r) (statusCode r) (set_header name value (headers r)).

(** ** The closures of [handler] *)

(** [this.onError(err, req, res)]. *)
Definition call_onError (e : JsVal) (st : Dispatch) : Dispatch :=
  log (EvErrorSink e (req st) (res st))
      (set_res (onErr st e (req st) (res st)) st).

(** [nextWithReqAndRes(req, res)(err)]; [lp] is [loop]. *)
Definition nextWithReqAndRes (lp : Dispatch -> Dispatch) (err : JsVal)
    (st : Dispatch) : Dispatch :=
  if truthy err && negb (writableEnded (res st))
  then call_onError err st
  else lp st.

(** Running a handler body.  [async] tells whether the body belongs to an
    [AsyncFunction]: its throws reject the promise that [applyHandler]
    awaits inside [try], so the [catch] runs in a later turn.  A throw of any
    other body rejects the promise of [applyHandler] itself, which [handle]
    rethrows into its own promise, which [loop] drops. *)
Fixpoint run_prog (lp : Dispatch -> Dispatch) (async : bool) (p : prog)
    (st : Dispatch) : Dispatch :=
  match p with
  | PRet => st
  | PThrow e => if async then enqueue (TCatch e) st else log (EvUnhandled e) st
  | PEnd k => run_prog lp async k (set_res (end_res (res st)) st)
  | PNext err k => run_prog lp async k (nextWithReqAndRes lp err st)
  | PLater k => enqueue (TResume async k) st
  | PRead f => run_prog lp async (f (req st) (res st)) st
  end.

(** [applyHandler(h)(req, res, next)] for the handler of entry [i]. *)
Definition applyHandler (lp : Dispatch -> Dispatch) (i : nat) (h : Handler)
    (st : Dispatch) : Dispatch :=
  match h with
  | UserHandler true body => run_prog lp true body (log (EvHandler i) st)
  | UserHandler false body => run_prog lp false body (log (EvHandler i) st)
  | BoundOnError e => call_onError e (log (EvHandler i) st)
  end.

Section Dispatcher.

Variable C : Collab.

(** [req.method === method]. *)
Definition method_is (r : Req) (m : Middleware) : bool :=
  match mmethod m with
  | Some s => method r =? s
  | None => false
  end.

(** [handle(mw)(req, res, next)] for [mw = mw[i]].  The context extension
    ([this.applyExtensions] or [extendMiddleware(this)]) fills in fields of
    [req] and [res] that the dispatcher does not read; the call is recorded as
    [EvExtend i].  [req.route] is such a field too. *)
Definition handle (lp : Dispatch -> Dispatch) (i : nat) (m : Middleware)
    (st : Dispatch) : Dispatch :=
  let r := req st in
  let orig := url r in
  let stripped := strip_prefix orig (mpath m) in
  let pathname := pathname_of C orig in
  let r1 := mkReq stripped (Some orig) (Some (pathname_of C stripped))
                  (method r) (params r) in
  let st1 := log (EvExtend i) (set_req r1 st) in
  let back := lp (set_req (set_url orig r1) st1) in
  match mtype m with
  | TRoute =>
      if method_is r1 m then
        if matchParams C (mpath m) pathname then
          let r2 := set_params (getURLParams C (mpath m) pathname) r1 in
          applyHandler lp i (mhandler m)
            (set_res (set_status 200 (res st1)) (set_req r2 st1))
        else back
      else back
  | TMw =>
      if matchLoose C (mpath m) pathname
      then applyHandler lp i (mhandler m) st1
      else back
  end.

(** [loop(req, res)].  [fuel] bounds the entries still to be tried; the
    guard that stops the walk is [idx <= len], see [loop_fuel]. *)
Fixpoint loop (fuel : nat) (st : Dispatch) : Dispatch :=
  match fuel with
  | O => st
  | S f =>
      if writableEnded (res st) then st
      else if (idx st <=? len st)%nat then
        match nth_error (mw st) (idx st) with
        | Some m => handle (loop f) (idx st) m (set_idx (S (idx st)) st)
        | None => log (EvUnhandled (JObj None)) (set_idx (S (idx st)) st)
        end
      else st
  end.

(** Entries left to try: [idx .. len]. *)
Definition fuel_of (st : Dispatch) : nat := S (len st) - idx st.

Definition loopT (st : Dispatch) : Dispatch := loop (fuel_of st) st.

(** A queued task runs with the continuation of the same dispatch. *)
Definition run_task (t : task) (st : Dispatch) : Dispatch :=
  match t with
  | TResume async k => run_prog loopT async k st
  | TCatch e => nextWithReqAndRes loopT e st
  end.

Fixpoint remove_nth {A : Type} (n : nat) (l : list A) : list A :=
  match n, l with
  | _, [] => []
  | O, _ :: l' => l'
  | S n', x :: l' => x :: remove_nth n' l'
  end.

(** The event loop: each element of [sched] picks the queued task to run
    next (an index out of range picks nothing). *)
Fixpoint run_schedule (sched : list nat) (st : Dispatch) : Dispatch :=
  match sched with
  | [] => st
  | n :: sched' =>
      match nth_error (pending st) n with
      | Some t =>
          run_schedule sched' (run_task t (set_pending (remove_nth n (pending st)) st))
      | None => run_schedule sched' st
      end
  end.

End Dispatcher.

(** ** The application *)

(** The fields of [App] that [handler] reads: [middleware], [apps] (mount
    path to sub-application, in the order of [Object.keys]), [noMatchHandler],
    [onError], and whether [settings.xPoweredBy === true].  Applications form
    a tree: a mounted application is held by value, so the model covers
    applications in which each application object is mounted under one key of
    one parent; an object mounted under two keys would share its [middleware]
    array between them, which a value cannot. *)
#[local] Unset Elimination Schemes.
Inductive App : Type :=
| mkApp (middleware : list Middleware) (apps : list (string * App))
        (noMatchHandler : Handler) (onError : ErrorHandler) (xPoweredBy : bool).
#[local] Set Elimination Schemes.

Definition middleware (a : App) : list Middleware :=
  match a with mkApp m _ _ _ _ => m end.
Definition apps (a : App) : list (string * App) :=
  match a with mkApp _ s _ _ _ => s end.
Definition noMatchHandler (a : App) : Handler :=
  match a with mkApp _ _ h _ _ => h end.
Definition onError (a : App) : ErrorHandler :=
  match a with mkApp _ _ _ e _ => e end.
Definition xPoweredBy (a : App) : bool :=
  match a with mkApp _ _ _ _ x => x end.

(** The value [handler] pushes: [{ handler: this.noMatchHandler, type: 'mw', path: '/' }]. *)
Definition noMatchMW (a : App) : Middleware :=
  mkMiddleware "/" None (noMatchHandler a) TMw.

(** [Object.keys(this.apps).find((x) => req.url.startsWith(x))]. *)
Definition find_subappPath (a : App) (rq : Req) : option (string * App) :=
  find (fun kv => startsWith (url rq) (fst kv)) (apps a).

(** [if (subappPath)]: the empty string is falsy. *)
Definition delegates (a : App) (rq : Req) : option (string * App) :=
  match find_subappPath a rq with
  | Some (p, sub) => if p =? "" then None else Some (p, sub)
  | None => None
  end.

(** The response after the X-Powered-By step, for a response on which
    [setHeader] does not throw (see [setHeader]). *)
Definition powered (a : App) (rs : Res) : Res :=
  if xPoweredBy a then setHeader "X-Powered-By" "tinyhttp" rs else rs.

(** The delegation step of [handler] over the mounts [l]:
    [subappPath = keys.find((x) => u.startsWith(x))], then, if [subappPath] is
    truthy, [this.apps[subappPath].handler(req, res)], which [call] stands
    for.  The result is the mounts with the sub-application as its own
    [handler] call left it, and the dispatch of that call. *)
Fixpoint delegate_to (call : string -> App -> App * Dispatch) (u : string)
    (l : list (string * App)) : option (list (string * App) * Dispatch) :=
  match l with
  | [] => None
  | (p, sub) :: rest =>
      if startsWith u p then
        if p =? "" then None
        else let (sub', d) := call p sub in Some ((p, sub') :: rest, d)
      else
        match delegate_to call u rest with
        | Some (rest', d) => Some ((p, sub) :: rest', d)
        | None => None
        end
  end.

Section Application.

Variable C : Collab.

(** [new App(options)]: [onError], [noMatchHandler] and [settings.xPoweredBy]
    as the constructor sets them. *)
Definition newApp (o_onError : option ErrorHandler) (o_noMatch : option Handler)
    (o_settings : option bool) : App :=
  let oe := match o_onError with Some f => f | None => onErrorHandler C end in
  mkApp [] []
        (match o_noMatch with Some h => h | None => BoundOnError (JObj (Some 404%Z)) end)
        oe
        (match o_settings with Some b => b | None => true end).

(** The walk of [handler] once no sub-application took the request:
    [mw.push(noMatchMW)], [idx = 0], [len = mw.length - 1], [loop(req, res)].
    [mws] is the list after the push. *)
Definition start_walk (mws : list Middleware) (oe : ErrorHandler)
    (rq : Req) (rs : Res) (tr : list Event) : Dispatch :=
  loopT C (mkDispatch rq rs mws (length mws - 1) 0 oe tr []).

(** [handler(req, res)].  The result is the application as the call leaves it
    (its [middleware] array is mutated in place, and so is that of the
    sub-application the call delegates to) and the state of the dispatch that
    walked the request.  [tr] is the trace so far. *)
Fixpoint handler (a : App) (rq : Req) (rs : Res) (tr : list Event) {struct a}
    : App * Dispatch :=
  match a with
  | mkApp mws subs nm oe xp =>
      let rs1 := if xp then setHeader "X-Powered-By" "tinyhttp" rs else rs in
      match delegate_to (fun p sub => handler sub rq rs1 (tr ++ [EvDelegate p]))
                        (url rq) subs with
      | Some (subs', d) => (mkApp mws subs' nm oe xp, d)
      | None =>
          let mws' := mws ++ [mkMiddleware "/" None nm TMw] in
          (mkApp mws' subs nm oe xp, start_walk mws' oe rq rs1 tr)
      end
  end.

(** One request from arrival to the end of the turns [sched] picks. *)
Definition serve (a : App) (rq : Req) (rs : Res) (sched : list nat)
    : App * Dispatch :=
  let (a', d) := handler a rq rs [] in (a', run_schedule C sched d).

End Application.

(** ** Reading traces *)

Definition handler_index (e : Event) : option nat :=
  match e with EvHandler i => Some i | _ => None end.

(** The entries whose handlers were called, in order. *)
Fixpoint handlers_called (tr : list Event) : list nat :=
  match tr with
  | [] => []
  | EvHandler i :: tr' => i :: handlers_called tr'
  | _ :: tr' => handlers_called tr'
  end.

(** The errors the Error Sink was called with, in order. *)
Fixpoint sink_calls (tr : list Event) : list JsVal :=
  match tr with
  | [] => []
  | EvErrorSink e _ _ :: tr' => e :: sink_calls tr'
  | _ :: tr' => sink_calls tr'
  end.

Fixpoint unhandled (tr : list Event) : list JsVal :=
  match tr with
  | [] => []
  | EvUnhandled e :: tr' => e :: unhandled tr'
  | _ :: tr' => unhandled tr'
  end.

(** [req.method === method] and the pattern test of [handle], for entry [m]
    and the pathname the attempt computes from [u]. *)
Definition satisfied (C : Collab) (m : Middleware) (meth u : string) : bool :=
  match mtype m with
  | TRoute =>
      match mmethod m with
      | Some s => (meth =? s) && matchParams C (mpath m) (pathname_of C u)
      | None => false
      end
  | TMw => matchLoose C (mpath m) (pathname_of C u)
  end.

(** ** A concrete set of collaborators *)

Module SpecModel.

(** [parse(x).pathname] of Node's 'url' module, for the URLs a request line
    carries: the part before the first "?" or "#". *)
Fixpoint pathname (s : string) : string :=
  match s with
  | EmptyString => EmptyString
  | String c s' =>
      if (nat_of_ascii c =? 63)%nat || (nat_of_ascii c =? 35)%nat
      then EmptyString
      else String c (pathname s')
  end.

(** The segments between slashes: ["/users/42"] gives [""; "users"; "42"]. *)
Fixpoint segments (s : string) : list string :=
  match s with
  | EmptyString => [EmptyString]
  | String c s' =>
      if (nat_of_ascii c =? 47)%nat then EmptyString :: segments s'
      else match segments s' with
           | x :: r => String c x :: r
           | [] => [String c EmptyString]
           end
  end.

Fixpoint drop_trailing_slash (s : string) : string :=
  match s with
  | EmptyString => EmptyString
  | String c EmptyString => if (nat_of_ascii c =? 47)%nat then EmptyString else s
  | String c s' => String c (drop_trailing_slash s')
  end.

(** Modelled from the spec: [matchLoose] of the request package, which is not
    in app.ts.  Section 4.1: true iff the pathname equals the pattern or
    begins with the pattern immediately followed by "/" or the end of the
    string; section 4.3 step 9: the pattern "/" of the terminal entry matches
    every path, so a trailing slash of the pattern is dropped first. *)
Definition matchLoose (pattern p : string) : bool :=
  let base := drop_trailing_slash pattern in
  (p =? pattern) ||
  (String.prefix base p &&
   match substring_from (String.length base) p with
   | EmptyString => true
   | String c _ => (nat_of_ascii c =? 47)%nat
   end).

(** Modelled from the spec: strict matching (section 4.1).  A pattern segment
    is a literal, a named parameter [:name] matching one non-empty segment, or
    a final wildcard [*] taking the rest. *)
Fixpoint match_segments (pat p : list string) : option (list (string * string)) :=
  match pat, p with
  | [], [] => Some []
  | "*" :: _, _ :: _ => Some [("wild", String.concat "/" p)]
  | String ":" name :: pat', x :: p' =>
      if x =? "" then None
      else option_map (cons (name, x)) (match_segments pat' p')
  | s :: pat', x :: p' => if s =? x then match_segments pat' p' else None
  | _, _ => None
  end.

Definition matchParams (pattern p : string) : bool :=
  match match_segments (segments pattern) (segments p) with
  | Some _ => true
  | None => false
  end.

Definition getURLParams (pattern p : string) : list (string * string) :=
  match match_segments (segments pattern) (segments p) with
  | Some l => l
  | None => []
  end.

(** An Error Sink that writes the error and ends the response, with the
    error's [code] as status (500 when it has none). *)
Definition onErrorHandler : ErrorHandler :=
  fun e _ rs =>
    mkRes true (match e with JObj (Some c) => c | _ => 500%Z end) (headers rs).

Definition collab : Collab :=
  mkCollab pathname matchLoose matchParams getURLParams onErrorHandler.

End SpecModel.

(** ** States of the walk *)

Definition ended (st : Dispatch) : bool := writableEnded (res st).

(** The Error Sink of the dispatch finalizes every response it is given. *)
Definition sink_finalizes (oe : ErrorHandler) : Prop :=
  forall e rq rs, writableEnded (oe e rq rs) = true.

(** [advances st st']: [st'] comes after [st] in the same dispatch.  The
    closure constants are the same, the cursor did not go back, a finished
    response stayed finished, and the trace grew by [ex], where
    - every handler called belongs to an entry at or after the cursor of [st];
    - nothing was called if the response was already finished in [st];
    - with a finalizing Error Sink, the sink was called at most once, and if
      it was, the response is finished in [st']. *)
Record advances (st st' : Dispatch) : Prop := mkAdvances {
  adv_mw : mw st' = mw st;
  adv_len : len st' = len st;
  adv_onErr : onErr st' = onErr st;
  adv_idx : idx st <= idx st';
  adv_ended : ended st = true -> ended st' = true;
  adv_trace : exists ex,
    trace st' = trace st ++ ex /\
    Forall (fun i => idx st <= i) (handlers_called ex) /\
    (ended st = true -> handlers_called ex = [] /\ sink_calls ex = []) /\
    (sink_finalizes (onErr st) ->
       sink_calls ex = [] \/
       (exists e, sink_calls ex = [e]) /\ ended st' = true)
}.


(** The request as [handle] leaves it for the handler of [m]: [originalUrl]
    is the URL the attempt found, [url] is stripped of the entry's path. *)
Definition attempt_req (C : Collab) (m : Middleware) (r : Req) : Req :=
  mkReq (strip_prefix (url r) (mpath m)) (Some (url r))
        (Some (pathname_of C (strip_prefix (url r) (mpath m))))
        (method r) (params r).

(** The state [handle] passes to [loop] in its two [else] branches, after
    [req.url = req.originalUrl]. *)
Definition missed (C : Collab) (i : nat) (m : Middleware) (st : Dispatch) : Dispatch :=
  set_req (set_url (url (req st)) (attempt_req C m (req st)))
          (log (EvExtend i) (set_req (attempt_req C m (req st)) st)).

(** The state [handle] passes to [applyHandler] when the entry matches. *)
Definition matched (C : Collab) (i : nat) (m : Middleware) (st : Dispatch) : Dispatch :=
  let st1 := log (EvExtend i) (set_req (attempt_req C m (req st)) st) in
  match mtype m with
  | TMw => st1
  | TRoute =>
      set_res (set_status 200 (res st1))
        (set_req (set_params (getURLParams C (mpath m) (pathname_of C (url (req st))))
                             (attempt_req C m (req st))) st1)
  end.

(** [n] attempts in a row that end in an [else] branch, from the cursor on. *)
Fixpoint misses (C : Collab) (n : nat) (st : Dispatch) : Dispatch :=
  match n with
  | O => st
  | S n' =>
      match nth_error (mw st) (idx st) with
      | Some m => misses C n' (missed C (idx st) m (set_idx (S (idx st)) st))
      | None => st
      end
  end.

(** The state in which [handler] calls [loop]: the terminal entry pushed,
    [idx = 0], [len = mw.length - 1]. *)
Definition first_state (a : App) (rq : Req) (rs : Res) (tr : list Event) : Dispatch :=
  mkDispatch rq (powered a rs) (middleware a ++ [noMatchMW a])
             (length (middleware a ++ [noMatchMW a]) - 1) 0 (onError a) tr [].

(** The requests of a list, one [handler] call after the other, on the same
    application object. *)
Fixpoint handle_all (C : Collab) (a : App) (rqs : list (Req * Res)) : App :=
  match rqs with
  | [] => a
  | (rq, rs) :: rest => handle_all C (fst (handler C a rq rs [])) rest
  end.

(** ** Sample applications *)

Module Samples.

Definition C : Collab := SpecModel.collab.

Definition get (u : string) : Req := mkReq u None None "GET" [].
Definition fresh : Res := mkRes false 200 [].

Definition not_found : Handler := BoundOnError (JObj (Some 404%Z)).

(** [(req, res, next) => next()] *)
Definition h_next : Handler := UserHandler false (PNext JUndefined PRet).
(** [(req, res) => res.end()] *)
Definition h_end : Handler := UserHandler false (PEnd PRet).
(** [(req, res, next) => next(0)] *)
Definition h_next_zero : Handler := UserHandler false (PNext (JNum 0) PRet).
(** [(req, res) => { throw 'boom' }] *)
Definition h_throw : Handler := UserHandler false (PThrow (JStr "boom")).
(** [async (req, res) => { throw 'boom' }] *)
Definition h_async_throw : Handler := UserHandler true (PThrow (JStr "boom")).
(** [async (req, res) => { res.end(); throw 'boom' }] *)
Definition h_async_end_throw : Handler :=
  UserHandler true (PEnd (PThrow (JStr "boom"))).

Definition app_of (entries : list Middleware) (subs : list (string * App)) : App :=
  mkApp entries subs not_found SpecModel.onErrorHandler true.

(** [app.use('/api', next).get('/api/users', end)] *)
Definition api_app : App :=
  app_of [mkMiddleware "/api" None h_next TMw;
          mkMiddleware "/api/users" (Some "GET") h_end TRoute] [].

(** A parent with a route of its own and [api_app] mounted at "/foo". *)
Definition mount_app : App :=
  app_of [mkMiddleware "/foobar" (Some "GET") h_end TRoute] [("/foo", api_app)].

Definition zero_app : App :=
  app_of [mkMiddleware "/" None h_next_zero TMw;
          mkMiddleware "/" None h_end TMw] [].

Definition throw_app : App :=
  app_of [mkMiddleware "/" None h_throw TMw] [].

Definition async_end_throw_app : App :=
  app_of [mkMiddleware "/" None h_async_end_throw TMw] [].

(** An Error Sink that leaves the response open. *)
Definition quiet_sink : ErrorHandler := fun _ _ rs => rs.

(** [(req, res, next) => { next('a'); next('b') }] under [quiet_sink]. *)
Definition twice_app : App :=
  mkApp [mkMiddleware "/" None
           (UserHandler false (PNext (JStr "a") (PNext (JStr "b") PRet))) TMw]
        [] not_found quiet_sink true.

Definition async_throw_app : App :=
  app_of [mkMiddleware "/" None h_async_throw TMw] [].

Definition overlap_app : App :=
  app_of [mkMiddleware "/users" (Some "POST") h_end TRoute;
          mkMiddleware "/users" None h_end TMw;
          mkMiddleware "/users" (Some "GET") h_end TRoute] [].

(** A dispatch state in the middle of a walk of [overlap_app]. *)
Definition mid_walk (finished : bool) : Dispatch :=
  mkDispatch (get "/users") (mkRes finished 200 [])
             (middleware overlap_app ++ [noMatchMW overlap_app]) 3 1
             SpecModel.onErrorHandler [EvExtend 0]
             [TResume true (PNext JUndefined PRet)].

End Samples.

(** ** Walks in order *)

(** The entries whose attempt began (context extension ran), in order. *)
Fixpoint attempts (tr : list Event) : list nat :=
  match tr with
  | [] => []
  | EvExtend i :: tr' => i :: attempts tr'
  | _ :: tr' => attempts tr'
  end.

(** [l] is strictly increasing and lies in [lo, hi). *)
Definition ascending (lo hi : nat) (l : list nat) : Prop :=
  StronglySorted lt l /\ Forall (fun i => lo <= i < hi) l.

(** [in_order st st']: from [st] to [st'] the cursor did not go back nor past
    [len + 1], and the entries attempted, and those whose handler was called,
    are strictly increasing and lie between the two cursors. *)
Definition in_order (st st' : Dispatch) : Prop :=
  len st' = len st /\ idx st <= idx st' /\
  (idx st <= S (len st) -> idx st' <= S (len st)) /\
  exists ex,
    trace st' = trace st ++ ex /\
    ascending (idx st) (idx st') (attempts ex) /\
    ascending (idx st) (idx st') (handlers_called ex).

(** ** Handlers that hand nothing on *)

(** A handler body that neither calls its continuation nor throws, now or in
    a later turn. *)
Inductive silent : prog -> Prop :=
| silent_ret : silent PRet
| silent_end k : silent k -> silent (PEnd k)
| silent_later k : silent k -> silent (PLater k)
| silent_read f : (forall r s, silent (f r s)) -> silent (PRead f).

Definition task_silent (t : task) : Prop :=
  match t with
  | TResume _ k => silent k
  | TCatch _ => False
  end.

(** ** Plain objects used as maps *)

(** The own properties of an object, in insertion order.  The key
    ["__proto__"], which JavaScript treats as the prototype and not as a
    property, is outside this model. *)
Definition Obj (V : Type) : Type := list (string * V).

(** [o[k]] for an own property. *)
Fixpoint obj_get {V : Type} (k : string) (o : Obj V) : option V :=
  match o with
  | [] => None
  | (k', v) :: o' => if k' =? k then Some v else obj_get k o'
  end.

Definition obj_has {V : Type} (k : string) (o : Obj V) : bool :=
  match obj_get k o with Some _ => true | None => false end.

(** [o[k] = v]: an existing key keeps its place, a new one goes last. *)
Fixpoint obj_set {V : Type} (k : string) (v : V) (o : Obj V) : Obj V :=
  match o with
  | [] => [(k, v)]
  | (k', v') :: o' => if k' =? k then (k, v) :: o' else (k', v') :: obj_set k v o'
  end.

(** [{ ...a, ...b }]: the keys of [a] with the values [b] gives them if it has
    them, then the keys only [b] has. *)
Definition spread {V : Type} (a b : Obj V) : Obj V :=
  map (fun kv => (fst kv, match obj_get (fst kv) b with
                          | Some v => v
                          | None => snd kv
                          end)) a
  ++ filter (fun kv => negb (obj_has (fst kv) a)) b.

(** ** More of JavaScript's strings *)

(** [s.lastIndexOf('.')], [None] standing for -1. *)
Fixpoint lastIndexOf_dot (s : string) : option nat :=
  match s with
  | EmptyString => None
  | String c s' =>
      match lastIndexOf_dot s' with
      | Some i => Some (S i)
      | None => if (nat_of_ascii c =? 46)%nat then Some 0 else None
      end
  end.

(** [file.slice(file.lastIndexOf('.') + 1)]. *)
Definition slice_after_last_dot (file : string) : string :=
  match lastIndexOf_dot file with
  | Some i => substring_from (S i) file
  | None => substring_from 0 file
  end.

(** [s.endsWith(suffix)]. *)
Definition endsWith (s suffix : string) : bool :=
  (String.length suffix <=? String.length s)%nat &&
  (substring_from (String.length s - String.length suffix) s =? suffix).

(** ** The application object and its methods *)

(** What [render] reads from outside the application: [process.cwd()],
    whether [process.env.NODE_ENV === 'production'], and [path.join] on two
    arguments. *)
Record Process : Type := mkProcess {
  cwd : string;
  production : bool;
  path_join : string -> string -> string
}.

Section Methods.

(** [L]: values of locals; [R]: the engine's render options;
    [E]: template functions. *)
Variables L R E : Type.

(** The fields of an [App].  [middleware], [apps], [noMatchHandler] and
    [onError] are those of the dispatcher's view of it, [dispatcher]. *)
Record Application : Type := mkApplication {
  a_middleware : list Middleware;
  a_apps : list (string * App);
  a_locals : Obj L;
  a_noMatchHandler : Handler;
  a_onError : ErrorHandler;
  a_settings : Obj JsVal;
  a_engines : Obj E
}.

(** [this.settings?.xPoweredBy === true]. *)
Definition settings_xPoweredBy (s : Obj JsVal) : bool :=
  match obj_get "xPoweredBy" s with
  | Some (JBool true) => true
  | _ => false
  end.

(** The application as [handler] reads it. *)
Definition dispatcher (app : Application) : App :=
  mkApp (a_middleware app) (a_apps app) (a_noMatchHandler app) (a_onError app)
        (settings_xPoweredBy (a_settings app)).

(** [new App(options)] for [options] with the given [onError],
    [noMatchHandler] and [settings], each possibly absent; [dflt] is the
    imported [onErrorHandler]. *)
Definition construct (dflt : ErrorHandler) (o_onError : option ErrorHandler)
    (o_noMatch : option Handler) (o_settings : option (Obj JsVal)) : Application :=
  mkApplication [] [] []
    (match o_noMatch with Some h => h | None => BoundOnError (JObj (Some 404%Z)) end)
    (match o_onError with Some f => f | None => dflt end)
    (match o_settings with Some s => s | None => [("xPoweredBy", JBool true)] end)
    [].

Definition with_settings (s : Obj JsVal) (app : Application) : Application :=
  mkApplication (a_middleware app) (a_apps app) (a_locals app)
                (a_noMatchHandler app) (a_onError app) s (a_engines app).

(** [set(setting, value)]. *)
Definition set (setting : string) (value : JsVal) (app : Application) : Application :=
  with_settings (obj_set setting value (a_settings app)) app.

(** [enable(setting)]. *)
Definition enable (setting : string) (app : Application) : Application :=
  with_settings (obj_set setting (JBool true) (a_settings app)) app.

(** [disable(setting)]. *)
Definition disable (setting : string) (app : Application) : Application :=
  with_settings (obj_set setting (JBool false) (a_settings app)) app.

(** [engine(ext, fn)]. *)
Definition engine (ext : string) (fn : E) (app : Application) : Application :=
  mkApplication (a_middleware app) (a_apps app) (a_locals app)
                (a_noMatchHandler app) (a_onError app) (a_settings app)
                (obj_set ext fn (a_engines app)).

(** [TemplateEngineOptions]; an absent field is [None]. *)
Record TemplateEngineOptions : Type := mkOptions {
  cache : option bool;
  ext : option string;
  renderOptions : option R;
  viewsFolder : option string;
  _locals : option (Obj L)
}.

(** [x || d] for an optional string: absent and empty are falsy. *)
Definition or_string (x : option string) (d : string) : string :=
  match x with
  | Some s => if s =? "" then d else s
  | None => d
  end.

(** The call [render] makes: [this.engines[ext](dest, locals, renderOptions, cb)];
    [cb] is handed on as given. *)
Record EngineCall : Type := mkEngineCall {
  ec_engine : E;
  ec_dest : string;
  ec_locals : Obj L;
  ec_renderOptions : option R
}.

(** [options.viewsFolder || `${process.cwd()}/views`]. *)
Definition render_viewsFolder (P : Process) (options : TemplateEngineOptions) : string :=
  or_string (viewsFolder options) (cwd P ++ "/views").

(** [options.ext || file.slice(file.lastIndexOf('.') + 1) || 'ejs']. *)
Definition render_ext (file : string) (options : TemplateEngineOptions) : string :=
  or_string (Some (or_string (ext options) (slice_after_last_dot file))) "ejs".

(** [options._locals || {}]. *)
Definition render_locals (options : TemplateEngineOptions) : Obj L :=
  match _locals options with Some l => l | None => [] end.

(** [options.cache || process.env.NODE_ENV === 'production']. *)
Definition render_cache (P : Process) (options : TemplateEngineOptions) : bool :=
  match cache options with Some true => true | _ => production P end.

(** The [options] object as [render] leaves it: the four assignments. *)
Definition render_options (P : Process) (file : string)
    (options : TemplateEngineOptions) : TemplateEngineOptions :=
  mkOptions (Some (render_cache P options)) (Some (render_ext file options))
            (renderOptions options) (Some (render_viewsFolder P options))
            (Some (render_locals options)).

(** The file name [render] gives [path.join]. *)
Definition render_file (file e : string) : string :=
  if endsWith file ("." ++ e) then file else file ++ "." ++ e.

(** [render(file, data, cb, options)]: the options as mutated, and the call
    to the engine, [None] when [this.engines] has no own property for the
    extension.  ([options._locals] is an object by then, so the second spread
    always happens.) *)
Definition render (P : Process) (app : Application) (file : string)
    (data : Obj L) (options : TemplateEngineOptions)
    : TemplateEngineOptions * option EngineCall :=
  let vf := render_viewsFolder P options in
  let e := render_ext file options in
  let locals := spread (spread data (a_locals app)) (render_locals options) in
  let named := render_file file e in
  let dest := if vf =? "" then named else path_join P vf named in
  (render_options P file options,
   match obj_get e (a_engines app) with
   | Some fn => Some (mkEngineCall fn dest locals (renderOptions options))
   | None => None
   end).

End Methods.

Arguments mkApplication {L E} _ _ _ _ _ _ _.
Arguments mkOptions {L R} _ _ _ _ _.
Arguments mkEngineCall {L R E} _ _ _ _.
Arguments a_middleware {L E} _.
Arguments a_apps {L E} _.
Arguments a_locals {L E} _.
Arguments a_noMatchHandler {L E} _.
Arguments a_onError {L E} _.
Arguments a_settings {L E} _.
Arguments a_engines {L E} _.
Arguments dispatcher {L E} _.
Arguments construct {L E} _ _ _ _.
Arguments with_settings {L E} _ _.
Arguments set {L E} _ _ _.
Arguments enable {L E} _ _.
Arguments disable {L E} _ _.
Arguments engine {L E} _ _ _.
Arguments cache {L R} _.
Arguments ext {L R} _.
Arguments renderOptions {L R} _.
Arguments viewsFolder {L R} _.
Arguments _locals {L R} _.
Arguments render_viewsFolder {L R} _ _.
Arguments render_ext {L R} _ _.
Arguments render_locals {L R} _.
Arguments render_cache {L R} _ _.
Arguments render_options {L R} _ _ _.
Arguments render {L R E} _ _ _ _ _.
Arguments ec_engine {L R E} _.
Arguments ec_dest {L R E} _.
Arguments ec_locals {L R E} _.
Arguments ec_renderOptions {L R E} _.

(** ** More sample applications *)

Module Samples2.

(** An application whose [noMatchHandler] is [(req, res, next) => next()]. *)
Definition pass_app : App :=
  mkApp [mkMiddleware "/users" (Some "GET") Samples.h_end TRoute] []
        Samples.h_next SpecModel.onErrorHandler true.

(** [(req, res, next) => { if (req.url === '/') res.end(); else next() }] *)
Definition h_read : Handler :=
  UserHandler false
    (PRead (fun r _ => if url r =? "/" then PEnd PRet else PNext JUndefined PRet)).

Definition read_app : App :=
  Samples.app_of [mkMiddleware "/users/:id" (Some "GET") h_read TRoute] [].

(** [async (req, res) => { await later; if (!res.writableEnded) res.end() }] *)
Definition h_late_end : Handler :=
  UserHandler true
    (PLater (PRead (fun _ s => if writableEnded s then PRet else PEnd PRet))).

Definition late_app : App :=
  Samples.app_of [mkMiddleware "/" None h_late_end TMw;
                  mkMiddleware "/" None Samples.h_end TMw] [].

(** [(req, res, next) => next('boom')] at "/api". *)
Definition failing_app : App :=
  Samples.app_of
    [mkMiddleware "/api" None (UserHandler false (PNext (JStr "boom") PRet)) TMw;
     mkMiddleware "/api" None Samples.h_end TMw] [].

(** An application with the X-Powered-By header disabled. *)
Definition plain_app : App :=
  mkApp [mkMiddleware "/users" (Some "GET") Samples.h_end TRoute] []
        Samples.not_found SpecModel.onErrorHandler false.

(** A second mount behind one with the empty path. *)
Definition empty_mount_app : App :=
  Samples.app_of [] [("", Samples.api_app); ("/api", Samples.api_app)].

Definition settings0 : Obj JsVal := [("xPoweredBy", JBool true)].

(** An application object with locals and one engine, [7], under "ejs". *)
Definition site : Application string nat :=
  mkApplication [] [] [("title", "site"); ("lang", "en")]
                Samples.not_found SpecModel.onErrorHandler settings0 [("ejs", 7)].

Definition proc : Process :=
  mkProcess "/srv" false (fun a b => (a ++ "/" ++ b)%string).

Definition no_options : TemplateEngineOptions string nat :=
  mkOptions None None None None None.

End Samples2.

(** * Properties *)

(** ** Traces *)

Lemma handlers_called_app (a b : list Event) :
  handlers_called (a ++ b) = handlers_called a ++ handlers_called b.
Proof.
  induction a as [|e a IH]; simpl; [reflexivity|].
  destruct e; simpl; rewrite ?IH; reflexivity.
Qed.

Lemma sink_calls_app (a b : list Event) :
  sink_calls (a ++ b) = sink_calls a ++ sink_calls b.
Proof.
  induction a as [|e a IH]; simpl; [reflexivity|].
  destruct e; simpl; rewrite ?IH; reflexivity.
Qed.

Lemma unhandled_app (a b : list Event) :
  unhandled (a ++ b) = unhandled a ++ unhandled b.
Proof.
  induction a as [|e a IH]; simpl; [reflexivity|].
  destruct e; simpl; rewrite ?IH; reflexivity.
Qed.

(** ** What one dispatch can do to its state *)

Lemma advances_refl st : advances st st.
Proof.
  split; auto.
  exists []. rewrite app_nil_r. simpl. repeat split; auto.
Qed.

Lemma advances_trans a b c : advances a b -> advances b c -> advances a c.
Proof.
  intros [m1 l1 o1 i1 e1 (x1 & t1 & f1 & n1 & s1)]
         [m2 l2 o2 i2 e2 (x2 & t2 & f2 & n2 & s2)].
  split; try congruence; try lia; auto.
  exists (x1 ++ x2). rewrite t2, t1, app_assoc.
  rewrite handlers_called_app, sink_calls_app.
  split; [reflexivity|]. split; [|split].
  - apply Forall_app. split; [assumption|].
    eapply Forall_impl; [|exact f2]. simpl. intros; lia.
  - intros H. destruct (n1 H) as [h1 k1]. destruct (n2 (e1 H)) as [h2 k2].
    rewrite h1, h2, k1, k2. auto.
  - intros H. destruct (s1 H) as [k1 | [[e k1] d1]].
    + rewrite k1. simpl. rewrite o1 in s2. exact (s2 H).
    + destruct (n2 d1) as [_ k2]. rewrite k1, k2. simpl.
      right. split; [exists e; reflexivity | auto].
Qed.

(** A step that touches neither the closure constants, the cursor nor the
    finished flag and logs at most one event that is no call. *)
Lemma advances_quiet st st' ex :
  mw st' = mw st -> len st' = len st -> onErr st' = onErr st ->
  idx st <= idx st' -> (ended st = true -> ended st' = true) ->
  trace st' = trace st ++ ex ->
  handlers_called ex = [] -> sink_calls ex = [] ->
  advances st st'.
Proof.
  intros. split; auto.
  exists ex. rewrite H5, H6. repeat split; auto.
Qed.

Lemma advances_log st e :
  handlers_called [e] = [] -> sink_calls [e] = [] -> advances st (log e st).
Proof.
  intros. apply advances_quiet with (ex := [e]); auto.
Qed.

Lemma advances_enqueue st t : advances st (enqueue t st).
Proof.
  apply advances_quiet with (ex := []); auto. simpl. now rewrite app_nil_r.
Qed.

Lemma advances_set_pending st p : advances st (set_pending p st).
Proof.
  apply advances_quiet with (ex := []); auto. simpl. now rewrite app_nil_r.
Qed.

Lemma advances_set_req st r : advances st (set_req r st).
Proof.
  apply advances_quiet with (ex := []); auto. simpl. now rewrite app_nil_r.
Qed.

Lemma advances_end st : advances st (set_res (end_res (res st)) st).
Proof.
  apply advances_quiet with (ex := []); auto. simpl. now rewrite app_nil_r.
Qed.

Lemma advances_status st c : advances st (set_res (set_status c (res st)) st).
Proof.
  apply advances_quiet with (ex := []); auto. simpl. now rewrite app_nil_r.
Qed.

Lemma advances_set_idx st i : idx st <= i -> advances st (set_idx i st).
Proof.
  intros. apply advances_quiet with (ex := []); auto. simpl. now rewrite app_nil_r.
Qed.

(** Calling a handler: entry [i] is at or after the cursor, the response is
    not finished. *)
Lemma advances_log_handler st i :
  idx st <= i -> ended st = false -> advances st (log (EvHandler i) st).
Proof.
  intros Hi He. split; auto.
  exists [EvHandler i]. simpl. repeat split; auto; congruence.
Qed.

Lemma advances_call_onError st e :
  ended st = false -> advances st (call_onError e st).
Proof.
  intros He. split; simpl; auto; try congruence.
  exists [EvErrorSink e (req st) (res st)]. simpl.
  repeat split; auto; try congruence.
  intros H. right. split; [eauto | apply H].
Qed.

Section Advances.

Variable lp : Dispatch -> Dispatch.
Hypothesis lp_advances : forall s, advances s (lp s).

Lemma advances_next err st : advances st (nextWithReqAndRes lp err st).
Proof.
  unfold nextWithReqAndRes.
  destruct (truthy err); simpl; [|apply lp_advances].
  destruct (writableEnded (res st)) eqn:E; simpl; [apply lp_advances|].
  now apply advances_call_onError.
Qed.

Lemma advances_run_prog async p : forall st, advances st (run_prog lp async p st).
Proof.
  induction p as [|e|k IH|err k IH|k IH|f IH]; intros st; simpl.
  - apply advances_refl.
  - destruct async; [apply advances_enqueue | now apply advances_log].
  - eapply advances_trans; [apply advances_end | apply IH].
  - eapply advances_trans; [apply advances_next | apply IH].
  - apply advances_enqueue.
  - apply IH.
Qed.

Lemma advances_applyHandler i h st :
  idx st <= i -> ended st = false -> advances st (applyHandler lp i h st).
Proof.
  intros Hi He. unfold applyHandler.
  pose proof (advances_log_handler st i Hi He) as Hl.
  destruct h as [[|] body | e];
    (eapply advances_trans; [exact Hl|]);
    try apply advances_run_prog.
  now apply advances_call_onError.
Qed.

End Advances.

Lemma advances_snoc_handler base st i :
  advances base st -> idx base <= i -> ended st = false ->
  advances base (log (EvHandler i) st).
Proof.
  intros [m l o ix e (ex & t & f & n & s)] Hi He.
  split; simpl; auto.
  exists (ex ++ [EvHandler i]). rewrite t, app_assoc.
  rewrite handlers_called_app, sink_calls_app. simpl. rewrite app_nil_r.
  split; [reflexivity|]. split; [|split].
  - apply Forall_app. split; [assumption|]. constructor; auto.
  - intros H. rewrite (e H) in He. discriminate.
  - intros H. destruct (s H) as [k | [_ d]]; [now left|].
    unfold ended in *. simpl in *. congruence.
Qed.

Section AdvancesWalk.

Variable C : Collab.

Lemma advances_applyHandler_from lp base i h st :
  (forall s, advances s (lp s)) ->
  advances base st -> idx base <= i -> ended st = false ->
  advances base (applyHandler lp i h st).
Proof.
  intros Hlp Hb Hi He. unfold applyHandler.
  pose proof (advances_snoc_handler base st i Hb Hi He) as Hl.
  destruct h as [[|] body | e];
    (eapply advances_trans; [exact Hl|]);
    try (apply advances_run_prog; assumption).
  now apply advances_call_onError.
Qed.

(** One step of the walk: [handle(mw[idx++])]. *)
Lemma advances_handle lp m st :
  (forall s, advances s (lp s)) -> ended st = false ->
  advances st (handle C lp (idx st) m (set_idx (S (idx st)) st)).
Proof.
  intros Hlp He. unfold handle.
  set (s0 := set_idx (S (idx st)) st).
  set (r1 := mkReq _ _ _ _ _).
  set (s1 := log (EvExtend (idx st)) (set_req r1 s0)).
  assert (H1 : advances st s1).
  { eapply advances_trans; [apply (advances_set_idx st (S (idx st))); lia|].
    eapply advances_trans; [apply advances_set_req|].
    now apply advances_log. }
  assert (Hback : advances st (lp (set_req (set_url (url (req s0)) r1) s1))).
  { eapply advances_trans; [exact H1|].
    eapply advances_trans; [apply advances_set_req | apply Hlp]. }
  assert (E1 : ended s1 = false) by exact He.
  destruct (mtype m).
  - destruct (matchLoose C _ _); [|exact Hback].
    apply advances_applyHandler_from; auto.
  - destruct (method_is r1 m); [|exact Hback].
    destruct (matchParams C _ _); [|exact Hback].
    apply advances_applyHandler_from; auto.
    eapply advances_trans; [exact H1|].
    eapply advances_trans;
      [apply (advances_set_req s1
                (set_params (getURLParams C (mpath m) (pathname_of C (url (req s0)))) r1))|].
    exact (advances_status (set_req _ s1) 200%Z).
Qed.

Lemma advances_loop fuel : forall st, advances st (loop C fuel st).
Proof.
  induction fuel as [|f IH]; intros st; simpl; [apply advances_refl|].
  destruct (writableEnded (res st)) eqn:E; [apply advances_refl|].
  destruct (idx st <=? len st)%nat; [|apply advances_refl].
  destruct (nth_error (mw st) (idx st)) as [m|].
  - apply advances_handle; auto.
  - eapply advances_trans; [apply (advances_set_idx st (S (idx st))); lia|].
    now apply advances_log.
Qed.

Lemma advances_loopT st : advances st (loopT C st).
Proof. apply advances_loop. Qed.

Lemma advances_run_task t st : advances st (run_task C t st).
Proof.
  destruct t as [async k | e]; simpl.
  - apply advances_run_prog, advances_loopT.
  - apply advances_next, advances_loopT.
Qed.

Lemma advances_run_schedule sched : forall st, advances st (run_schedule C sched st).
Proof.
  induction sched as [|n sched IH]; intros st; simpl; [apply advances_refl|].
  destruct (nth_error (pending st) n) as [t|]; [|apply IH].
  eapply advances_trans; [apply advances_set_pending|].
  eapply advances_trans; [apply advances_run_task | apply IH].
Qed.

(** *** The fuel of [loop] is enough *)

Lemma fuel_of_advances st st' : advances st st' -> fuel_of st' <= fuel_of st.
Proof.
  intros [_ l _ i _ _]. unfold fuel_of. rewrite l. lia.
Qed.

Lemma run_prog_agree n lp lp' async p :
  (forall s, advances s (lp s)) ->
  (forall s, fuel_of s <= n -> lp s = lp' s) ->
  forall st, fuel_of st <= n -> run_prog lp async p st = run_prog lp' async p st.
Proof.
  intros Hadv Hagree.
  induction p as [|e|k IH|err k IH|k IH|f IH]; intros st Hn; simpl; auto.
  assert (E : nextWithReqAndRes lp err st = nextWithReqAndRes lp' err st).
  { unfold nextWithReqAndRes.
    destruct (truthy err && negb (writableEnded (res st))); auto. }
  rewrite <- E. apply IH.
  pose proof (fuel_of_advances _ _ (advances_next lp Hadv err st)). lia.
Qed.

Lemma handle_agree n lp lp' i m st :
  (forall s, advances s (lp s)) ->
  (forall s, fuel_of s <= n -> lp s = lp' s) ->
  fuel_of st <= n -> handle C lp i m st = handle C lp' i m st.
Proof.
  intros Hadv Hagree Hn. unfold handle.
  set (r1 := mkReq _ _ _ _ _).
  rewrite (Hagree (set_req (set_url (url (req st)) r1) (log (EvExtend i) (set_req r1 st))))
    by exact Hn.
  assert (A : forall h s, fuel_of s <= n ->
              applyHandler lp i h s = applyHandler lp' i h s).
  { intros h s Hs. destruct h as [[|] body | e]; simpl; auto;
      apply (run_prog_agree n); auto. }
  rewrite !A by exact Hn. reflexivity.
Qed.

(** Any fuel of at least the number of entries left gives the same walk:
    [loop] stops on [idx <= len], never on its fuel. *)
Lemma loop_fuel f1 : forall f2 st,
  fuel_of st <= f1 -> fuel_of st <= f2 -> loop C f1 st = loop C f2 st.
Proof.
  induction f1 as [|f1 IH]; intros f2 st H1 H2.
  - unfold fuel_of in H1. destruct f2 as [|f2]; simpl; [reflexivity|].
    destruct (writableEnded (res st)); [reflexivity|].
    destruct (Nat.leb_spec (idx st) (len st)); [lia | reflexivity].
  - destruct f2 as [|f2]; simpl.
    + unfold fuel_of in H2.
      destruct (writableEnded (res st)); [reflexivity|].
      destruct (Nat.leb_spec (idx st) (len st)); [lia | reflexivity].
    + destruct (writableEnded (res st)); [reflexivity|].
      destruct (Nat.leb_spec (idx st) (len st)); [|reflexivity].
      destruct (nth_error (mw st) (idx st)) as [m|]; [|reflexivity].
      apply (handle_agree (Nat.min f1 f2)).
      * apply advances_loop.
      * intros s Hs. apply IH; lia.
      * unfold fuel_of in *. simpl. lia.
Qed.

(** [loopT] unfolds like the [loop] of app.ts. *)
Lemma loopT_unfold st :
  loopT C st =
  if writableEnded (res st) then st
  else if (idx st <=? len st)%nat then
    match nth_error (mw st) (idx st) with
    | Some m => handle C (loopT C) (idx st) m (set_idx (S (idx st)) st)
    | None => log (EvUnhandled (JObj None)) (set_idx (S (idx st)) st)
    end
  else st.
Proof.
  unfold loopT at 1. unfold fuel_of.
  destruct (Nat.leb_spec (idx st) (len st)) as [Hle|Hgt].
  - replace (S (len st) - idx st) with (S (len st - idx st)) by lia. simpl.
    destruct (writableEnded (res st)); [reflexivity|].
    destruct (Nat.leb_spec (idx st) (len st)); [|lia].
    destruct (nth_error (mw st) (idx st)) as [m|]; [|reflexivity].
    apply (handle_agree (len st - idx st)).
    + apply advances_loop.
    + intros s Hs. unfold loopT. apply loop_fuel; lia.
    + unfold fuel_of. simpl. lia.
  - replace (S (len st) - idx st) with 0 by lia. simpl.
    destruct (writableEnded (res st)); reflexivity.
Qed.

End AdvancesWalk.

(** ** One attempt *)

Section Attempt.

Variable C : Collab.

Lemma satisfied_mw m meth u :
  mtype m = TMw -> satisfied C m meth u = matchLoose C (mpath m) (pathname_of C u).
Proof. unfold satisfied. now intros ->. Qed.

(** An entry the request does not satisfy hands the request back to [loop]
    with [url] restored. *)
Lemma handle_miss lp i m st :
  satisfied C m (method (req st)) (url (req st)) = false ->
  handle C lp i m st = lp (missed C i m st).
Proof.
  unfold satisfied, handle, missed, method_is, attempt_req. simpl.
  destruct (mtype m).
  - now intros ->.
  - destruct (mmethod m) as [s|]; [|reflexivity].
    destruct (method (req st) =? s); simpl; [now intros -> | reflexivity].
Qed.

(** An entry the request satisfies has its handler applied. *)
Lemma handle_match lp i m st :
  satisfied C m (method (req st)) (url (req st)) = true ->
  handle C lp i m st = applyHandler lp i (mhandler m) (matched C i m st).
Proof.
  unfold satisfied, handle, matched, method_is, attempt_req. simpl.
  destruct (mtype m).
  - now intros ->.
  - destruct (mmethod m) as [s|]; [|discriminate].
    destruct (method (req st) =? s); simpl; [now intros -> | discriminate].
Qed.

Lemma missed_url i m st : url (req (missed C i m st)) = url (req st).
Proof. reflexivity. Qed.

Lemma missed_originalUrl i m st :
  originalUrl (req (missed C i m st)) = Some (url (req st)).
Proof. reflexivity. Qed.

Lemma misses_spec n : forall st,
  idx st + n <= length (mw st) ->
  url (req (misses C n st)) = url (req st) /\
  method (req (misses C n st)) = method (req st) /\
  idx (misses C n st) = idx st + n /\
  mw (misses C n st) = mw st /\ len (misses C n st) = len st /\
  onErr (misses C n st) = onErr st /\
  res (misses C n st) = res st /\ pending (misses C n st) = pending st /\
  trace (misses C n st) = trace st ++ map EvExtend (seq (idx st) n).
Proof.
  induction n as [|n IH]; intros st Hn; simpl.
  - rewrite app_nil_r, Nat.add_0_r. repeat split; reflexivity.
  - destruct (nth_error (mw st) (idx st)) as [m|] eqn:E.
    + destruct (IH (missed C (idx st) m (set_idx (S (idx st)) st)))
        as (u & me & i & w & l & o & r & p & t).
      { simpl. lia. }
      rewrite u, me, i, w, l, o, r, p, t. simpl.
      rewrite <- app_assoc. simpl. repeat split; auto; lia.
    + apply nth_error_None in E. lia.
Qed.

(** The walk over [n] entries the request does not satisfy. *)
Lemma loopT_misses n : forall st,
  ended st = false -> idx st + n <= S (len st) -> idx st + n <= length (mw st) ->
  (forall j m, j < n -> nth_error (mw st) (idx st + j) = Some m ->
               satisfied C m (method (req st)) (url (req st)) = false) ->
  loopT C st = loopT C (misses C n st).
Proof.
  induction n as [|n IH]; intros st He Hn Hl Hmiss; simpl; [reflexivity|].
  destruct (nth_error (mw st) (idx st)) as [m|] eqn:E.
  - rewrite loopT_unfold. unfold ended in He. rewrite He, E.
    destruct (Nat.leb_spec (idx st) (len st)); [|lia].
    rewrite handle_miss.
    + apply IH; simpl; auto; try lia.
      intros j m' Hj Hm'. apply (Hmiss (S j)); [lia|].
      now rewrite <- Nat.add_succ_comm.
    + simpl. apply (Hmiss 0); [lia|]. now rewrite Nat.add_0_r.
  - apply nth_error_None in E. lia.
Qed.

(** The walk up to the first entry the request satisfies. *)
Lemma loopT_first_match k m st :
  ended st = false -> idx st + k <= len st ->
  nth_error (mw st) (idx st + k) = Some m ->
  satisfied C m (method (req st)) (url (req st)) = true ->
  (forall j m', j < k -> nth_error (mw st) (idx st + j) = Some m' ->
                satisfied C m' (method (req st)) (url (req st)) = false) ->
  loopT C st =
  applyHandler (loopT C) (idx st + k) (mhandler m)
    (matched C (idx st + k) m (set_idx (S (idx st + k)) (misses C k st))).
Proof.
  intros He Hk Hm Hsat Hmiss.
  assert (Hlen : idx st + k < length (mw st)).
  { apply nth_error_Some. congruence. }
  rewrite (loopT_misses k st) by (auto; lia).
  destruct (misses_spec k st) as (u & me & i & w & l & o & r & p & t); [lia|].
  rewrite loopT_unfold. rewrite r, i, l, w, Hm.
  unfold ended in He. rewrite He.
  destruct (Nat.leb_spec (idx st + k) (len st)); [|lia].
  rewrite handle_match by (simpl; rewrite u, me; exact Hsat).
  rewrite <- i. reflexivity.
Qed.

End Attempt.

(** ** The delegation step *)

Section Delegation.

Variable C : Collab.

Lemma delegate_to_none call u l :
  match find (fun kv => startsWith u (fst kv)) l with
  | Some (p, _) => (p =? "") = true
  | None => True
  end ->
  delegate_to call u l = None.
Proof.
  induction l as [|[p sub] l IH]; simpl; [reflexivity|].
  destruct (startsWith u p).
  - now intros ->.
  - intros H. now rewrite IH.
Qed.

Lemma delegate_to_some call u l p sub :
  find (fun kv => startsWith u (fst kv)) l = Some (p, sub) ->
  (p =? "") = false ->
  exists l1 l2,
    l = l1 ++ (p, sub) :: l2 /\
    Forall (fun kv => startsWith u (fst kv) = false) l1 /\
    startsWith u p = true /\
    delegate_to call u l =
    Some (l1 ++ (p, fst (call p sub)) :: l2, snd (call p sub)).
Proof.
  induction l as [|[q s] l IH]; simpl; [discriminate|].
  destruct (startsWith u q) eqn:E.
  - intros [= -> ->] Hp. rewrite Hp.
    exists [], l. simpl. repeat split; auto.
    now destruct (call p sub).
  - intros Hf Hp. destruct (IH Hf Hp) as (l1 & l2 & -> & Hall & Hs & Hd).
    exists ((q, s) :: l1), l2. simpl. rewrite Hd. repeat split; auto.
Qed.

Lemma handler_unfold a rq rs tr :
  handler C a rq rs tr =
  match delegate_to (fun p sub => handler C sub rq (powered a rs) (tr ++ [EvDelegate p]))
                    (url rq) (apps a) with
  | Some (subs', d) =>
      (mkApp (middleware a) subs' (noMatchHandler a) (onError a) (xPoweredBy a), d)
  | None =>
      (mkApp (middleware a ++ [noMatchMW a]) (apps a) (noMatchHandler a)
             (onError a) (xPoweredBy a),
       start_walk C (middleware a ++ [noMatchMW a]) (onError a) rq (powered a rs) tr)
  end.
Proof. destruct a; reflexivity. Qed.

(** No mount takes the request: the terminal entry is pushed and the walk
    starts. *)
Lemma handler_walks a rq rs tr :
  delegates a rq = None ->
  handler C a rq rs tr =
  (mkApp (middleware a ++ [noMatchMW a]) (apps a) (noMatchHandler a)
         (onError a) (xPoweredBy a),
   start_walk C (middleware a ++ [noMatchMW a]) (onError a) rq (powered a rs) tr).
Proof.
  intros H. rewrite handler_unfold, delegate_to_none; [reflexivity|].
  unfold delegates, find_subappPath in H.
  destruct (find _ (apps a)) as [[p sub]|]; [|exact I].
  destruct (p =? ""); [reflexivity | discriminate].
Qed.

(** A mount takes the request. *)
Lemma handler_delegates a rq rs tr p sub :
  delegates a rq = Some (p, sub) ->
  exists l1 l2,
    apps a = l1 ++ (p, sub) :: l2 /\
    Forall (fun kv => startsWith (url rq) (fst kv) = false) l1 /\
    startsWith (url rq) p = true /\ p <> "" /\
    handler C a rq rs tr =
    (mkApp (middleware a)
           (l1 ++ (p, fst (handler C sub rq (powered a rs) (tr ++ [EvDelegate p]))) :: l2)
           (noMatchHandler a) (onError a) (xPoweredBy a),
     snd (handler C sub rq (powered a rs) (tr ++ [EvDelegate p]))).
Proof.
  intros H. unfold delegates, find_subappPath in H.
  destruct (find _ (apps a)) as [[q s]|] eqn:F; [|discriminate].
  destruct (q =? "") eqn:Q; [discriminate|]. injection H as -> ->.
  destruct (delegate_to_some
              (fun p sub => handler C sub rq (powered a rs) (tr ++ [EvDelegate p]))
              _ _ _ _ F Q) as (l1 & l2 & Ha & Hall & Hs & Hd).
  exists l1, l2. rewrite handler_unfold, Hd.
  repeat split; auto.
  intros ->. discriminate.
Qed.

Lemma delegates_same_apps a a' rq :
  apps a' = apps a -> delegates a' rq = delegates a rq.
Proof. unfold delegates, find_subappPath. now intros ->. Qed.

End Delegation.

(** ** From arrival to the first handler *)

Section FirstHandler.

Variable C : Collab.

Lemma handler_walks_first_state a rq rs tr :
  delegates a rq = None ->
  snd (handler C a rq rs tr) = loopT C (first_state a rq rs tr).
Proof. intros H. now rewrite handler_walks. Qed.

Lemma ended_powered a rs : writableEnded (powered a rs) = writableEnded rs.
Proof. unfold powered. now destruct (xPoweredBy a). Qed.

Lemma handlers_called_extends l : handlers_called (map EvExtend l) = [].
Proof. induction l; simpl; auto. Qed.

Lemma sink_calls_extends l : sink_calls (map EvExtend l) = [].
Proof. induction l; simpl; auto. Qed.

Lemma unhandled_extends l : unhandled (map EvExtend l) = [].
Proof. induction l; simpl; auto. Qed.

(** The state in which the handler of the first satisfied entry is applied. *)
Lemma matched_after_misses k m st :
  idx st + k <= length (mw st) ->
  let sm := matched C (idx st + k) m (set_idx (S (idx st + k)) (misses C k st)) in
  trace sm = trace st ++ map EvExtend (seq (idx st) (S k)) /\
  idx sm = S (idx st + k) /\ ended sm = ended st /\
  pending sm = pending st /\ onErr sm = onErr st /\
  mw sm = mw st /\ len sm = len st /\
  originalUrl (req sm) = Some (url (req st)).
Proof.
  intros Hk.
  destruct (misses_spec C k st Hk) as (u & me & i & w & l & o & r & p & t).
  unfold matched, ended.
  rewrite seq_S, map_app, app_assoc, <- t.
  destruct (mtype m); simpl; rewrite ?r, ?p, ?o, ?w, ?l, ?u, ?i;
    simpl; repeat split; reflexivity.
Qed.

Lemma advances_applyHandler_logged lp i h st :
  (forall s, advances s (lp s)) -> ended st = false ->
  advances (log (EvHandler i) st) (applyHandler lp i h st).
Proof.
  intros Hlp He. destruct h as [[|] body | e]; simpl.
  - now apply advances_run_prog.
  - now apply advances_run_prog.
  - now apply advances_call_onError.
Qed.

(** The whole request when entry [k] is the first the request satisfies. *)
Lemma serve_first_match a rq rs sched k m :
  delegates a rq = None -> writableEnded rs = false ->
  nth_error (middleware a ++ [noMatchMW a]) k = Some m ->
  satisfied C m (method rq) (url rq) = true ->
  (forall j m', j < k -> nth_error (middleware a ++ [noMatchMW a]) j = Some m' ->
                satisfied C m' (method rq) (url rq) = false) ->
  exists sm,
    snd (serve C a rq rs sched) =
      run_schedule C sched (applyHandler (loopT C) k (mhandler m) sm) /\
    trace sm = map EvExtend (seq 0 (S k)) /\ idx sm = S k /\ ended sm = false /\
    pending sm = [] /\ onErr sm = onError a /\
    originalUrl (req sm) = Some (url rq).
Proof.
  intros Hd He Hm Hsat Hmiss.
  assert (Hk : k < length (middleware a ++ [noMatchMW a])).
  { apply nth_error_Some. congruence. }
  set (st0 := first_state a rq rs []).
  assert (E0 : ended st0 = false) by (unfold ended; simpl; now rewrite ended_powered).
  pose proof (loopT_first_match C k m st0 E0) as L. simpl in L.
  specialize (L ltac:(lia) Hm Hsat Hmiss).
  destruct (matched_after_misses k m st0) as (t & i & e & p & o & _ & _ & ou);
    [simpl; lia|].
  simpl in t, i, e, p, o, ou.
  eexists. split; [|repeat split; eauto; congruence].
  unfold serve. rewrite (surjective_pairing (handler C a rq rs [])).
  simpl. rewrite handler_walks_first_state by exact Hd.
  fold st0. now rewrite L.
Qed.

End FirstHandler.

(** * The claims *)

(** ** C1 *)

(** C1.  First match wins.  When no mount takes the request, the first
    handler called for it is that of the first entry, in registration order,
    whose kind, method and path constraints the request satisfies; every
    handler called after it, in this turn or in any later one, belongs to a
    later entry, so no earlier entry ever has its handler called. *)
Theorem first_match_wins (C : Collab) (a : App) (rq : Req) (rs : Res)
    (sched : list nat) (k : nat) (m : Middleware) :
  delegates a rq = None -> writableEnded rs = false ->
  nth_error (middleware a ++ [noMatchMW a]) k = Some m ->
  satisfied C m (method rq) (url rq) = true ->
  (forall j m', j < k -> nth_error (middleware a ++ [noMatchMW a]) j = Some m' ->
                satisfied C m' (method rq) (url rq) = false) ->
  exists rest,
    handlers_called (trace (snd (serve C a rq rs sched))) = k :: rest /\
    Forall (fun i => k < i) rest.
Proof.
  intros Hd He Hm Hsat Hmiss.
  destruct (serve_first_match C a rq rs sched k m Hd He Hm Hsat Hmiss)
    as (sm & -> & t & i & e & _).
  pose proof (advances_applyHandler_logged (loopT C) k (mhandler m) sm
                (advances_loopT C) e) as A1.
  pose proof (advances_run_schedule C sched
                (applyHandler (loopT C) k (mhandler m) sm)) as A2.
  destruct (advances_trans _ _ _ A1 A2) as [_ _ _ _ _ (ex & -> & F & _)].
  change (trace (log (EvHandler k) sm)) with (trace sm ++ [EvHandler k]).
  change (idx (log (EvHandler k) sm)) with (idx sm) in F.
  rewrite t, i in *.
  rewrite !handlers_called_app, handlers_called_extends.
  exists (handlers_called ex). split; [reflexivity|].
  eapply Forall_impl; [|exact F]. cbv beta. intros; lia.
Qed.

Lemma first_match_wins_witness :
  exists rest,
    handlers_called
      (trace (snd (serve Samples.C Samples.overlap_app (Samples.get "/users")
                         Samples.fresh []))) = 1 :: rest /\
    Forall (fun i => 1 < i) rest.
Proof.
  apply (first_match_wins Samples.C Samples.overlap_app (Samples.get "/users")
           Samples.fresh [] 1
           (mkMiddleware "/users" None Samples.h_end TMw)); try reflexivity.
  intros j m' Hj. destruct j as [|j]; [|lia].
  simpl. intros [= <-]. reflexivity.
Defined.

(** ** C8 *)

(** C8.  Restoring [req.url] is lossless.  After any number [n] of attempts
    in a row at entries the request does not satisfy, the walk goes on from a
    state whose [url] is exactly the one the first of these attempts found,
    with the cursor [n] entries further. *)
Theorem url_restored_after_misses (C : Collab) (n : nat) (st : Dispatch) :
  ended st = false -> idx st + n <= S (len st) -> idx st + n <= length (mw st) ->
  (forall j m, j < n -> nth_error (mw st) (idx st + j) = Some m ->
               satisfied C m (method (req st)) (url (req st)) = false) ->
  loopT C st = loopT C (misses C n st) /\
  url (req (misses C n st)) = url (req st) /\
  idx (misses C n st) = idx st + n.
Proof.
  intros He Hn Hl Hmiss. split; [now apply loopT_misses|].
  destruct (misses_spec C n st Hl) as (u & _ & i & _). auto.
Qed.

Lemma url_restored_after_misses_witness :
  loopT Samples.C (first_state Samples.api_app (Samples.get "/other") Samples.fresh [])
  = loopT Samples.C
      (misses Samples.C 2
         (first_state Samples.api_app (Samples.get "/other") Samples.fresh [])) /\
  url (req (misses Samples.C 2
         (first_state Samples.api_app (Samples.get "/other") Samples.fresh [])))
  = "/other" /\
  idx (misses Samples.C 2
         (first_state Samples.api_app (Samples.get "/other") Samples.fresh [])) = 2.
Proof.
  apply (url_restored_after_misses Samples.C 2
           (first_state Samples.api_app (Samples.get "/other") Samples.fresh []));
    try reflexivity; simpl; try lia.
  intros j m Hj. destruct j as [|[|j]]; [| |lia]; simpl; intros [= <-]; reflexivity.
Defined.

(** ** C3 *)

Lemma run_schedule_idle (C : Collab) sched : forall st,
  pending st = [] -> run_schedule C sched st = st.
Proof.
  induction sched as [|n sched IH]; intros st Hp; simpl; [reflexivity|].
  rewrite Hp. destruct n; simpl; now apply IH.
Qed.

Lemma nth_error_snoc {A : Type} (l : list A) (x : A) :
  nth_error (l ++ [x]) (length l) = Some x.
Proof. rewrite nth_error_app2, Nat.sub_diag; auto. Qed.

(** The constructor's default for [noMatchHandler]. *)
Lemma newApp_default_noMatchHandler (C : Collab) o_onError o_settings :
  noMatchHandler (newApp C o_onError None o_settings) = BoundOnError (JObj (Some 404%Z)).
Proof. reflexivity. Qed.

Lemma nth_error_terminal {A : Type} (l : list A) (x : A) n :
  nth_error ((l ++ repeat x n) ++ [x]) (length l) = Some x.
Proof.
  rewrite <- app_assoc, nth_error_app2, Nat.sub_diag by lia.
  now destruct n.
Qed.

(** The request OPTIONS * satisfies no registered entry, and the pattern "/"
    of the terminal entry does not match its pathname "*" either: the walk
    runs off the end of the list, no handler and no Error Sink is called, and
    the response stays open. *)
Lemma options_star_is_not_answered :
  Forall (fun m => satisfied Samples.C m "OPTIONS" "*" = false)
         (middleware Samples.api_app) /\
  delegates Samples.api_app (mkReq "*" None None "OPTIONS" []) = None /\
  trace (snd (serve Samples.C Samples.api_app (mkReq "*" None None "OPTIONS" [])
                    Samples.fresh []))
  = [EvExtend 0; EvExtend 1; EvExtend 2] /\
  sink_calls
    (trace (snd (serve Samples.C Samples.api_app (mkReq "*" None None "OPTIONS" [])
                       Samples.fresh []))) = [] /\
  writableEnded
    (res (snd (serve Samples.C Samples.api_app (mkReq "*" None None "OPTIONS" [])
                     Samples.fresh []))) = false.
Proof. repeat split; repeat constructor. Qed.

(** C3, amended.  Not found.  The stored list is the registered [entries]
    followed by the terminal entries that [n] earlier requests pushed.  When
    the request arrives on an open response, no mount takes it, it satisfies
    none of [entries], and the pattern "/" of the terminal entry matches its
    pathname, the walk reaches a terminal entry:
    with the default [noMatchHandler] the Error Sink is called exactly once,
    with [{ code: 404 }], and the only handler called is that terminal one, at
    index [length entries]: no registered entry's handler is called, whatever
    runs later. *)
Theorem no_match_is_not_found (C : Collab) (a : App) (rq : Req) (rs : Res)
    (sched : list nat) (entries : list Middleware) (n : nat) :
  delegates a rq = None -> writableEnded rs = false ->
  noMatchHandler a = BoundOnError (JObj (Some 404%Z)) ->
  matchLoose C "/" (pathname_of C (url rq)) = true ->
  middleware a = entries ++ repeat (noMatchMW a) n ->
  Forall (fun m => satisfied C m (method rq) (url rq) = false) entries ->
  sink_calls (trace (snd (serve C a rq rs sched))) = [JObj (Some 404%Z)] /\
  handlers_called (trace (snd (serve C a rq rs sched))) = [length entries].
Proof.
  intros Hd He Hnm Hroot Hmw Hall.
  destruct (serve_first_match C a rq rs sched (length entries) (noMatchMW a))
    as (sm & -> & t & i & e & p & _); auto.
  - rewrite Hmw. apply nth_error_terminal.
  - intros j m' Hj Hm'. rewrite Hmw, <- app_assoc in Hm'.
    rewrite nth_error_app1 in Hm' by exact Hj.
    rewrite Forall_forall in Hall. eapply Hall, nth_error_In, Hm'.
  - unfold noMatchMW at 1. simpl mhandler. rewrite Hnm. simpl applyHandler.
    rewrite run_schedule_idle by exact p.
    unfold call_onError. simpl trace. rewrite t.
    rewrite <- !app_assoc, sink_calls_app, handlers_called_app.
    rewrite sink_calls_extends, handlers_called_extends. split; reflexivity.
Qed.

Lemma no_match_is_not_found_witness :
  sink_calls (trace (snd (serve Samples.C Samples.api_app (Samples.get "/other")
                                Samples.fresh [0; 0])))
    = [JObj (Some 404%Z)] /\
  handlers_called (trace (snd (serve Samples.C Samples.api_app (Samples.get "/other")
                                     Samples.fresh [0; 0])))
    = [length (middleware Samples.api_app)].
Proof.
  apply (no_match_is_not_found Samples.C Samples.api_app (Samples.get "/other")
           Samples.fresh [0; 0] (middleware Samples.api_app) 0); try reflexivity.
  repeat constructor.
Defined.

(** The same on the application object a first request has been through. *)
Example second_request_not_found :
  let a := handle_all Samples.C Samples.api_app [(Samples.get "/other", Samples.fresh)] in
  length (middleware a) = 3 /\
  handlers_called
    (trace (snd (serve Samples.C a (Samples.get "/other") Samples.fresh []))) = [2] /\
  sink_calls
    (trace (snd (serve Samples.C a (Samples.get "/other") Samples.fresh [])))
  = [JObj (Some 404%Z)].
Proof. repeat split; reflexivity. Qed.

(** ** C4 *)

Lemma advances_finished st st' :
  advances st st' -> ended st = true ->
  handlers_called (trace st') = handlers_called (trace st) /\
  sink_calls (trace st') = sink_calls (trace st) /\ ended st' = true.
Proof.
  intros [_ _ _ _ e (ex & -> & _ & n & _)] He.
  destruct (n He) as [h s].
  rewrite handlers_called_app, sink_calls_app, h, s, !app_nil_r. auto.
Qed.

Lemma loopT_finished (C : Collab) st : ended st = true -> loopT C st = st.
Proof. intros He. rewrite loopT_unfold. unfold ended in He. now rewrite He. Qed.

Lemma next_finished (C : Collab) err st :
  ended st = true -> nextWithReqAndRes (loopT C) err st = st.
Proof.
  intros He. unfold nextWithReqAndRes. unfold ended in He. rewrite He.
  rewrite andb_false_r. now apply loopT_finished.
Qed.

(** C4.  Once the response is finished, no further handler is called for the
    request: [loop] returns at once, so does a continuation whatever it is
    called with, and neither the rest of the handler that finished the
    response nor any continuation run in a later turn gets a handler called. *)
Theorem finished_stops_the_walk (C : Collab) (st : Dispatch) :
  ended st = true ->
  loopT C st = st /\
  (forall err, nextWithReqAndRes (loopT C) err st = st) /\
  (forall async k sched,
     handlers_called (trace (run_schedule C sched (run_prog (loopT C) async k st)))
     = handlers_called (trace st)).
Proof.
  intros He. split; [now apply loopT_finished|].
  split; [intros err; now apply next_finished|].
  intros async k sched.
  eapply advances_finished; [|exact He].
  eapply advances_trans; [|apply advances_run_schedule].
  apply advances_run_prog, advances_loopT.
Qed.

Lemma finished_stops_the_walk_witness :
  loopT Samples.C (Samples.mid_walk true) = Samples.mid_walk true /\
  (forall err, nextWithReqAndRes (loopT Samples.C) err (Samples.mid_walk true)
               = Samples.mid_walk true) /\
  (forall async k sched,
     handlers_called
       (trace (run_schedule Samples.C sched
                 (run_prog (loopT Samples.C) async k (Samples.mid_walk true))))
     = handlers_called (trace (Samples.mid_walk true))).
Proof.
  apply (finished_stops_the_walk Samples.C (Samples.mid_walk true)). reflexivity.
Defined.

(** The walk does go on from the same state when the response is open: the
    premise of C4 is what stops it. *)
Example open_response_walks_on :
  handlers_called
    (trace (run_schedule Samples.C [0] (Samples.mid_walk false))) = [1].
Proof. reflexivity. Qed.

(** ** C10 *)

Lemma handler_pushes (C : Collab) a rq rs tr :
  delegates a rq = None ->
  middleware (fst (handler C a rq rs tr)) = middleware a ++ [noMatchMW a] /\
  apps (fst (handler C a rq rs tr)) = apps a /\
  noMatchHandler (fst (handler C a rq rs tr)) = noMatchHandler a.
Proof. intros H. rewrite handler_walks by exact H. simpl. auto. Qed.

Lemma handle_all_grows (C : Collab) rqs : forall a,
  Forall (fun x => delegates a (fst x) = None) rqs ->
  middleware (handle_all C a rqs)
  = middleware a ++ repeat (noMatchMW a) (length rqs).
Proof.
  induction rqs as [|[rq rs] rqs IH]; intros a Hall; simpl.
  - now rewrite app_nil_r.
  - inversion Hall as [|x l Hd Hrest]; subst. simpl in Hd.
    destruct (handler_pushes C a rq rs [] Hd) as (Hm & Ha & Hn).
    rewrite IH.
    + rewrite Hm. unfold noMatchMW at 2. rewrite Hn. fold (noMatchMW a).
      now rewrite <- app_assoc.
    + eapply Forall_impl; [|exact Hrest]. intros x Hx.
      now rewrite (delegates_same_apps a _ (fst x) Ha).
Qed.

(** C10.  The terminal entry is pushed on the stored list.  Each [handler]
    call that does not delegate, on a response that is not finished, leaves
    the application's [middleware] one entry longer, the pushed [noMatchMW]:
    after the requests [rqs] the stored list is the initial one followed by
    one terminal entry per request.  Within one request the list the walk
    uses is that stored list, pushed once; it does not change during the
    request, and the terminal entry sits at [len], the last index the walk
    visits. *)
Theorem terminal_entry_pushed_on_stored_list (C : Collab) (a : App)
    (rqs : list (Req * Res)) (rq : Req) (rs : Res) (sched : list nat) :
  Forall (fun x => delegates a (fst x) = None /\ writableEnded (snd x) = false) rqs ->
  delegates a rq = None -> writableEnded rs = false ->
  middleware (handle_all C a rqs)
    = middleware a ++ repeat (noMatchMW a) (length rqs) /\
  middleware (fst (serve C a rq rs sched)) = middleware a ++ [noMatchMW a] /\
  mw (snd (serve C a rq rs sched)) = middleware (fst (serve C a rq rs sched)) /\
  len (snd (serve C a rq rs sched)) = length (middleware a) /\
  nth_error (mw (snd (serve C a rq rs sched))) (len (snd (serve C a rq rs sched)))
    = Some (noMatchMW a).
Proof.
  intros Hall Hd Hopen. split.
  { apply handle_all_grows. eapply Forall_impl; [|exact Hall]. now intros x [H _]. }
  unfold serve. rewrite handler_walks by exact Hd. simpl fst. simpl snd.
  pose proof (advances_trans _ _ _
                (advances_loopT C (first_state a rq rs []))
                (advances_run_schedule C sched (loopT C (first_state a rq rs []))))
    as [Hm Hl _ _ _ _].
  change (start_walk C (middleware a ++ [noMatchMW a]) (onError a) rq (powered a rs) [])
    with (loopT C (first_state a rq rs [])).
  rewrite Hm, Hl. simpl.
  rewrite length_app, Nat.add_sub. simpl.
  repeat split; auto. apply nth_error_snoc.
Qed.

Lemma terminal_entry_pushed_on_stored_list_witness :
  middleware (handle_all Samples.C Samples.api_app
                [(Samples.get "/a", Samples.fresh); (Samples.get "/b", Samples.fresh)])
    = middleware Samples.api_app ++ repeat (noMatchMW Samples.api_app) 2 /\
  middleware (fst (serve Samples.C Samples.api_app (Samples.get "/a") Samples.fresh []))
    = middleware Samples.api_app ++ [noMatchMW Samples.api_app] /\
  mw (snd (serve Samples.C Samples.api_app (Samples.get "/a") Samples.fresh []))
    = middleware (fst (serve Samples.C Samples.api_app (Samples.get "/a")
                             Samples.fresh [])) /\
  len (snd (serve Samples.C Samples.api_app (Samples.get "/a") Samples.fresh [])) = 2 /\
  nth_error (mw (snd (serve Samples.C Samples.api_app (Samples.get "/a")
                            Samples.fresh [])))
            (len (snd (serve Samples.C Samples.api_app (Samples.get "/a")
                             Samples.fresh [])))
    = Some (noMatchMW Samples.api_app).
Proof.
  apply (terminal_entry_pushed_on_stored_list Samples.C Samples.api_app
           [(Samples.get "/a", Samples.fresh); (Samples.get "/b", Samples.fresh)]
           (Samples.get "/a") Samples.fresh []).
  - repeat constructor.
  - reflexivity.
  - reflexivity.
Defined.

(** ** C2 *)

(** A mount at "/foo" takes the request for "/foobar", which the mount path
    does not loosely match; the parent's own route for "/foobar" is not
    consulted (the only handler called is the sub-application's terminal
    one), and the answer is 404. *)
Lemma mount_foo_takes_foobar :
  SpecModel.matchLoose "/foo" "/foobar" = false /\
  delegates Samples.mount_app (Samples.get "/foobar") = Some ("/foo", Samples.api_app) /\
  trace (snd (serve Samples.C Samples.mount_app (Samples.get "/foobar") Samples.fresh []))
  = [EvDelegate "/foo"; EvExtend 0; EvExtend 1; EvExtend 2; EvHandler 2;
     EvErrorSink (JObj (Some 404%Z))
       (mkReq "/foobar" (Some "/foobar") (Some "/foobar") "GET" [])
       (mkRes false 200 [("X-Powered-By", "tinyhttp")])].
Proof. repeat split; reflexivity. Qed.

(** C2, amended.  On a response that is not finished, a mount is selected
    when its path is the first key of [apps] that [req.url] starts with (and
    is not empty).  The call then is the sub-application's [handler] on the
    request as it arrived and the response after the X-Powered-By step, and
    nothing else: the dispatch is the sub-application's, and the parent's
    [middleware] is neither walked nor pushed on. *)
Theorem mount_takes_prefixed_request (C : Collab) (a : App) (rq : Req) (rs : Res)
    (p : string) (sub : App) :
  writableEnded rs = false ->
  delegates a rq = Some (p, sub) ->
  startsWith (url rq) p = true /\
  (exists l1 l2, apps a = l1 ++ (p, sub) :: l2 /\
                 Forall (fun kv => startsWith (url rq) (fst kv) = false) l1) /\
  snd (handler C a rq rs []) = snd (handler C sub rq (powered a rs) [EvDelegate p]) /\
  middleware (fst (handler C a rq rs [])) = middleware a.
Proof.
  intros _ H.
  destruct (handler_delegates C a rq rs [] p sub H)
    as (l1 & l2 & Ha & Hall & Hs & _ & ->).
  simpl. repeat split; eauto.
Qed.

Lemma mount_takes_prefixed_request_witness :
  startsWith (url (Samples.get "/foo/api/users")) "/foo" = true /\
  (exists l1 l2, apps Samples.mount_app = l1 ++ ("/foo", Samples.api_app) :: l2 /\
                 Forall (fun kv => startsWith (url (Samples.get "/foo/api/users"))
                                              (fst kv) = false) l1) /\
  snd (handler Samples.C Samples.mount_app (Samples.get "/foo/api/users")
               Samples.fresh [])
  = snd (handler Samples.C Samples.api_app (Samples.get "/foo/api/users")
                 (powered Samples.mount_app Samples.fresh) [EvDelegate "/foo"]) /\
  middleware (fst (handler Samples.C Samples.mount_app (Samples.get "/foo/api/users")
                           Samples.fresh []))
  = middleware Samples.mount_app.
Proof.
  apply (mount_takes_prefixed_request Samples.C Samples.mount_app
           (Samples.get "/foo/api/users") Samples.fresh "/foo" Samples.api_app);
    reflexivity.
Defined.

(** ** C5 *)

(** [next(0)] on an open response: 0 is not null, but it is falsy, so the
    Error Sink is not called and the walk goes on to the next entry. *)
Lemma next_with_zero_walks_on :
  JNum 0 <> JNull /\ JNum 0 <> JUndefined /\
  trace (snd (serve Samples.C Samples.zero_app (Samples.get "/") Samples.fresh []))
  = [EvExtend 0; EvHandler 0; EvExtend 1; EvHandler 1].
Proof. repeat split; try discriminate; reflexivity. Qed.

(** With an Error Sink that leaves the response open, a handler that calls
    its continuation twice with an error gets the sink called twice. *)
Example open_sink_called_twice :
  sink_calls
    (trace (snd (serve Samples.C Samples.twice_app (Samples.get "/") Samples.fresh [])))
  = [JStr "a"; JStr "b"].
Proof. reflexivity. Qed.

Lemma advances_after_sink st st' :
  advances st st' -> ended st = true ->
  handlers_called (trace st') = handlers_called (trace st) /\
  sink_calls (trace st') = sink_calls (trace st).
Proof. intros A He. destruct (advances_finished st st' A He) as (h & s & _). auto. Qed.

(** C5, amended.  A continuation called with a truthy error.  On an open
    response it calls the Error Sink with (error, request, response) and
    nothing else: the cursor stays, no handler is called.  If the Error Sink
    finalizes the response, nothing follows for the request: neither the rest
    of the calling handler nor any later turn gets a handler or the Error Sink
    called again.  On a finished response the call changes nothing and
    nothing follows either. *)
Theorem error_is_terminal (C : Collab) (err : JsVal) (st : Dispatch) :
  truthy err = true ->
  (ended st = false ->
     nextWithReqAndRes (loopT C) err st = call_onError err st /\
     trace (call_onError err st) = trace st ++ [EvErrorSink err (req st) (res st)] /\
     idx (call_onError err st) = idx st /\
     (sink_finalizes (onErr st) ->
      forall async k sched,
        handlers_called
          (trace (run_schedule C sched
                    (run_prog (loopT C) async k (call_onError err st))))
        = handlers_called (trace st) /\
        sink_calls
          (trace (run_schedule C sched
                    (run_prog (loopT C) async k (call_onError err st))))
        = sink_calls (trace st) ++ [err])) /\
  (ended st = true ->
     nextWithReqAndRes (loopT C) err st = st /\
     forall async k sched,
       handlers_called
         (trace (run_schedule C sched (run_prog (loopT C) async k st)))
       = handlers_called (trace st) /\
       sink_calls
         (trace (run_schedule C sched (run_prog (loopT C) async k st)))
       = sink_calls (trace st)).
Proof.
  intros Ht. split; intros He.
  - split; [|split; [reflexivity|split; [reflexivity|]]].
    + unfold nextWithReqAndRes. unfold ended in He. now rewrite Ht, He.
    + intros Hfin async k sched.
      assert (E : ended (call_onError err st) = true) by apply Hfin.
      destruct (advances_after_sink (call_onError err st)
                  (run_schedule C sched
                     (run_prog (loopT C) async k (call_onError err st)))) as [h s];
        [|exact E|].
      * eapply advances_trans; [|apply advances_run_schedule].
        apply advances_run_prog, advances_loopT.
      * rewrite h, s. simpl.
        rewrite handlers_called_app, sink_calls_app. simpl.
        now rewrite app_nil_r.
  - split; [now apply next_finished|].
    intros async k sched. apply advances_after_sink; [|exact He].
    eapply advances_trans; [|apply advances_run_schedule].
    apply advances_run_prog, advances_loopT.
Qed.

Lemma error_is_terminal_witness :
  nextWithReqAndRes (loopT Samples.C) (JStr "boom") (Samples.mid_walk false)
  = call_onError (JStr "boom") (Samples.mid_walk false) /\
  nextWithReqAndRes (loopT Samples.C) (JStr "boom") (Samples.mid_walk true)
  = Samples.mid_walk true.
Proof.
  destruct (error_is_terminal Samples.C (JStr "boom") (Samples.mid_walk false)
              eq_refl) as [Hopen _].
  destruct (error_is_terminal Samples.C (JStr "boom") (Samples.mid_walk true)
              eq_refl) as [_ Hfin].
  split; [apply (Hopen eq_refl) | apply (Hfin eq_refl)].
Defined.

(** With a finalizing Error Sink, one request gets at most one sink call. *)
Lemma at_most_one_sink_call (C : Collab) a rq rs sched :
  delegates a rq = None -> sink_finalizes (onError a) ->
  length (sink_calls (trace (snd (serve C a rq rs sched)))) <= 1.
Proof.
  intros Hd Hfin. unfold serve.
  rewrite (surjective_pairing (handler C a rq rs [])). simpl snd.
  rewrite handler_walks_first_state by exact Hd.
  destruct (advances_trans _ _ _
              (advances_loopT C (first_state a rq rs []))
              (advances_run_schedule C sched (loopT C (first_state a rq rs []))))
    as [_ _ _ _ _ (ex & -> & _ & _ & S)].
  simpl. destruct (S Hfin) as [-> | [[e ->] _]]; simpl; lia.
Qed.

(** ** C6 *)

(** An asynchronous handler that finishes the response and then throws: the
    [catch] of [applyHandler] runs in the next turn and calls the
    continuation with the thrown value, which is discarded.  The Error Sink
    is not called. *)
Lemma async_throw_after_end_is_discarded :
  pending (snd (handler Samples.C Samples.async_end_throw_app (Samples.get "/")
                        Samples.fresh []))
  = [TCatch (JStr "boom")] /\
  trace (snd (serve Samples.C Samples.async_end_throw_app (Samples.get "/")
                    Samples.fresh [0]))
  = [EvExtend 0; EvHandler 0] /\
  sink_calls
    (trace (snd (serve Samples.C Samples.async_end_throw_app (Samples.get "/")
                       Samples.fresh [0]))) = [].
Proof. repeat split; reflexivity. Qed.

Lemma remove_nth_snoc {A : Type} (q : list A) (t : A) :
  remove_nth (length q) (q ++ [t]) = q.
Proof. induction q as [|x q IH]; simpl; [reflexivity | now rewrite IH]. Qed.

(** The turn that runs a task queued last. *)
Lemma run_schedule_last (C : Collab) t st :
  run_schedule C [length (pending st)] (enqueue t st) = run_task C t st.
Proof.
  simpl. rewrite nth_error_snoc. unfold set_pending, enqueue. simpl.
  rewrite remove_nth_snoc. now destruct st.
Qed.

(** C6, amended.  A throw in the body of an [AsyncFunction] handler, in
    whatever state [st] the throw happens.  The wrapper catches it: nothing
    is logged as unhandled, and the [catch] is queued.  The turn that runs
    the [catch] is a call of the continuation with the thrown value, the very
    state a synchronous handler reaches by [next(e)].  When the value is
    truthy and the response is open, that is one Error Sink call with the
    thrown value and no handler call. *)
Theorem async_throw_is_next (C : Collab) (lp : Dispatch -> Dispatch)
    (e : JsVal) (st : Dispatch) :
  trace (run_prog lp true (PThrow e) st) = trace st /\
  pending (run_prog lp true (PThrow e) st) = pending st ++ [TCatch e] /\
  run_schedule C [length (pending st)] (run_prog lp true (PThrow e) st)
  = run_prog (loopT C) false (PNext e PRet) st /\
  (truthy e = true -> ended st = false ->
   sink_calls
     (trace (run_schedule C [length (pending st)] (run_prog lp true (PThrow e) st)))
   = sink_calls (trace st) ++ [e] /\
   handlers_called
     (trace (run_schedule C [length (pending st)] (run_prog lp true (PThrow e) st)))
   = handlers_called (trace st)).
Proof.
  assert (R : run_schedule C [length (pending st)] (run_prog lp true (PThrow e) st)
              = nextWithReqAndRes (loopT C) e st).
  { simpl run_prog. now rewrite run_schedule_last. }
  split; [reflexivity|]. split; [reflexivity|]. split; [exact R|].
  intros Ht He. rewrite R. unfold nextWithReqAndRes.
  unfold ended in He. rewrite Ht, He. simpl.
  rewrite sink_calls_app, handlers_called_app. simpl.
  now rewrite app_nil_r.
Qed.

Lemma async_throw_is_next_witness :
  sink_calls
    (trace (run_schedule Samples.C [length (pending (Samples.mid_walk false))]
              (run_prog (loopT Samples.C) true (PThrow (JStr "boom"))
                        (Samples.mid_walk false))))
  = sink_calls (trace (Samples.mid_walk false)) ++ [JStr "boom"] /\
  handlers_called
    (trace (run_schedule Samples.C [length (pending (Samples.mid_walk false))]
              (run_prog (loopT Samples.C) true (PThrow (JStr "boom"))
                        (Samples.mid_walk false))))
  = handlers_called (trace (Samples.mid_walk false)).
Proof.
  destruct (async_throw_is_next Samples.C (loopT Samples.C) (JStr "boom")
              (Samples.mid_walk false)) as (_ & _ & _ & H).
  apply H; reflexivity.
Defined.

(** The whole request for an asynchronous handler that throws at once. *)
Example async_throw_request :
  trace (snd (serve Samples.C Samples.async_throw_app (Samples.get "/")
                    Samples.fresh [0]))
  = [EvExtend 0; EvHandler 0;
     EvErrorSink (JStr "boom") (mkReq "/" (Some "/") (Some "/") "GET" [])
                 (mkRes false 200 [("X-Powered-By", "tinyhttp")])].
Proof. reflexivity. Qed.

(** ** C7 *)



(** The whole request when the first entry the request satisfies has a
    synchronous handler that throws at once: the Error Sink is never called,
    the value is a rejection nobody handles, no other handler is called and
    the response stays open. *)
Theorem sync_throw_escapes (C : Collab) (a : App) (rq : Req) (rs : Res)
    (sched : list nat) (k : nat) (m : Middleware) (e : JsVal) :
  delegates a rq = None -> writableEnded rs = false ->
  nth_error (middleware a ++ [noMatchMW a]) k = Some m ->
  satisfied C m (method rq) (url rq) = true ->
  (forall j m', j < k -> nth_error (middleware a ++ [noMatchMW a]) j = Some m' ->
                satisfied C m' (method rq) (url rq) = false) ->
  mhandler m = UserHandler false (PThrow e) ->
  sink_calls (trace (snd (serve C a rq rs sched))) = [] /\
  unhandled (trace (snd (serve C a rq rs sched))) = [e] /\
  handlers_called (trace (snd (serve C a rq rs sched))) = [k] /\
  ended (snd (serve C a rq rs sched)) = false.
Proof.
  intros Hd He Hm Hsat Hmiss Hh.
  destruct (serve_first_match C a rq rs sched k m Hd He Hm Hsat Hmiss)
    as (sm & -> & t & i & en & p & _).
  rewrite Hh. simpl applyHandler.
  rewrite run_schedule_idle by exact p.
  simpl trace. rewrite t, <- !app_assoc.
  rewrite sink_calls_app, unhandled_app, handlers_called_app.
  rewrite sink_calls_extends, unhandled_extends, handlers_called_extends.
  repeat split; auto.
Qed.

Lemma sync_throw_escapes_witness :
  sink_calls
    (trace (snd (serve Samples.C Samples.throw_app (Samples.get "/x") Samples.fresh [0])))
  = [] /\
  unhandled
    (trace (snd (serve Samples.C Samples.throw_app (Samples.get "/x") Samples.fresh [0])))
  = [JStr "boom"] /\
  handlers_called
    (trace (snd (serve Samples.C Samples.throw_app (Samples.get "/x") Samples.fresh [0])))
  = [0] /\
  ended (snd (serve Samples.C Samples.throw_app (Samples.get "/x") Samples.fresh [0]))
  = false.
Proof.
  apply (sync_throw_escapes Samples.C Samples.throw_app (Samples.get "/x")
           Samples.fresh [0] 0
           (mkMiddleware "/" None Samples.h_throw TMw) (JStr "boom"));
    try reflexivity.
  intros j m' Hj. lia.
Defined.

(** ** C9 *)

(** What the attempt after a matched entry starts from, when the handler of
    that entry calls its continuation without touching [req.url]: the url
    stripped of the matched entry's path, which the attempt copies over
    [originalUrl] and takes its pathname from. *)
Lemma attempt_after_match_starts_stripped (C : Collab) i j m m' st :
  url (req (matched C i m st)) = strip_prefix (url (req st)) (mpath m) /\
  originalUrl (req (missed C j m' (matched C i m st)))
  = Some (strip_prefix (url (req st)) (mpath m)) /\
  originalUrl (req (matched C j m' (matched C i m st)))
  = Some (strip_prefix (url (req st)) (mpath m)).
Proof. unfold matched. destruct (mtype m), (mtype m'); repeat split; reflexivity. Qed.

(** C9.  A route behind a prefixed middleware.  The request GET /api/users
    satisfies the route "/api/users" with the URL it arrived with.  The
    middleware at "/api" runs first and calls the continuation; the attempt at
    the route then copies the stripped url "/users" over [originalUrl] and
    matches against it, so the route's handler (entry 1) is never called and
    the request ends as 404. *)
Theorem stripped_url_hides_later_route :
  satisfied Samples.C (mkMiddleware "/api/users" (Some "GET") Samples.h_end TRoute)
            "GET" "/api/users" = true /\
  handlers_called
    (trace (snd (serve Samples.C Samples.api_app (Samples.get "/api/users")
                       Samples.fresh []))) = [0; 2] /\
  originalUrl
    (req (snd (serve Samples.C Samples.api_app (Samples.get "/api/users")
                     Samples.fresh []))) = Some "/users" /\
  statusCode
    (res (snd (serve Samples.C Samples.api_app (Samples.get "/api/users")
                     Samples.fresh []))) = 404%Z.
Proof. repeat split; reflexivity. Qed.

(** * Further properties *)

(** ** [lead] and the stripping of [req.url] *)

Lemma slash_code c : (nat_of_ascii c =? 47)%nat = true -> c = "/"%char.
Proof.
  intros H. apply Nat.eqb_eq in H.
  rewrite <- (ascii_nat_embedding c), H. reflexivity.
Qed.

Lemma prefix_slash_cons c s :
  String.prefix "/" (String c s) = (nat_of_ascii c =? 47)%nat.
Proof.
  change (String.prefix "/" (String c s))
    with (if ascii_dec "/" c then String.prefix "" s else false).
  destruct (ascii_dec "/" c) as [<-|N]; [now destruct s|].
  destruct (nat_of_ascii c =? 47)%nat eqn:E; [|reflexivity].
  apply slash_code in E. congruence.
Qed.

Lemma lead_slash x : String.prefix "/" (lead x) = true.
Proof.
  destruct x as [|c s]; [reflexivity|]. unfold lead.
  destruct (nat_of_ascii c =? 47)%nat eqn:E; [|reflexivity].
  now rewrite prefix_slash_cons.
Qed.

Lemma lead_nonempty x : (lead x =? "") = false.
Proof.
  destruct x as [|c s]; [reflexivity|]. unfold lead.
  now destruct (nat_of_ascii c =? 47)%nat.
Qed.

Lemma strip_prefix_lead u p :
  strip_prefix u p = lead (substring_from (String.length p) u).
Proof. unfold strip_prefix. now rewrite lead_nonempty. Qed.

Lemma strip_prefix_slash u p : String.prefix "/" (strip_prefix u p) = true.
Proof. rewrite strip_prefix_lead. apply lead_slash. Qed.

(** X1.  [lead] gives a string that begins with a slash, leaves such a string as
    it is, and so does nothing the second time. *)
Theorem lead_begins_with_slash (x : string) :
  String.prefix "/" (lead x) = true /\
  (String.prefix "/" x = true -> lead x = x) /\
  lead (lead x) = lead x.
Proof.
  assert (A : forall y, String.prefix "/" y = true -> lead y = y).
  { intros [|c s]; [discriminate|]. rewrite prefix_slash_cons. simpl. now intros ->. }
  pose proof (lead_slash x). auto.
Qed.

Lemma lead_begins_with_slash_witness : lead "/users" = "/users".
Proof.
  apply (proj1 (proj2 (lead_begins_with_slash "/users"))). reflexivity.
Defined.

Lemma substring_from_app p r : substring_from (String.length p) (p ++ r) = r.
Proof. induction p as [|c p IH]; simpl; [now destruct r | exact IH]. Qed.

Lemma substring_from_all n : forall s,
  String.length s <= n -> substring_from n s = "".
Proof.
  induction n as [|n IH]; intros [|c s] H; simpl in *; auto; try lia.
  apply IH. lia.
Qed.

(** X2.  The url an entry's handler sees.  The fallback ['/'] of
    [lead(...) || '/'] is never taken; the result begins with a slash; when
    the entry's path is a prefix of the url, the result is the rest of the url
    with a leading slash, and when the path is at least as long as the url
    (a route matched in full, for one) it is ["/"]. *)
Theorem strip_prefix_spec (u p r : string) :
  strip_prefix u p = lead (substring_from (String.length p) u) /\
  String.prefix "/" (strip_prefix u p) = true /\
  strip_prefix (p ++ r) p = lead r /\
  (String.length u <= String.length p -> strip_prefix u p = "/").
Proof.
  split; [apply strip_prefix_lead|]. split; [apply strip_prefix_slash|]. split.
  - now rewrite strip_prefix_lead, substring_from_app.
  - intros H. now rewrite strip_prefix_lead, substring_from_all.
Qed.

Lemma strip_prefix_spec_witness : strip_prefix "/api" "/api/users" = "/".
Proof.
  apply (proj2 (proj2 (proj2 (strip_prefix_spec "/api" "/api/users" "")))).
  simpl. lia.
Defined.

(** X3.  An entry at the root path (as [app.use(fn)] registers) leaves the url as
    it is, unless the url begins with two slashes: then one is dropped. *)
Theorem root_entry_keeps_url (r : string) :
  strip_prefix (String "/" r) "/" = if String.prefix "/" r then r else String "/" r.
Proof.
  change (String "/" r) with ("/" ++ r)%string at 1.
  rewrite strip_prefix_lead, (substring_from_app "/" r).
  destruct r as [|c s]; [reflexivity|]. rewrite prefix_slash_cons. reflexivity.
Qed.

(** ** Every entry is tried at most once, in registration order *)

Lemma attempts_app (a b : list Event) :
  attempts (a ++ b) = attempts a ++ attempts b.
Proof.
  induction a as [|e a IH]; simpl; [reflexivity|].
  destruct e; simpl; rewrite ?IH; reflexivity.
Qed.

Lemma ascending_nil lo hi : ascending lo hi [].
Proof. split; constructor. Qed.

Lemma ascending_one i : ascending i (S i) [i].
Proof. split; repeat constructor. Qed.

Lemma ascending_app a b c l1 l2 :
  ascending a b l1 -> ascending b c l2 -> a <= b -> b <= c ->
  ascending a c (l1 ++ l2).
Proof.
  intros [S1 F1] [S2 F2] Hab Hbc. split.
  - induction l1 as [|x l1 IH]; simpl; [exact S2|].
    inversion S1 as [|? ? Sx Fx]; inversion F1 as [|? ? Hx Fl]; subst.
    constructor; [now apply IH|].
    apply Forall_app. split; [exact Fx|].
    eapply Forall_impl; [|exact F2]. cbv beta. intros; lia.
  - apply Forall_app. split; (eapply Forall_impl; [|eassumption]);
      cbv beta; intros; lia.
Qed.

Lemma ascending_length lo hi l : ascending lo hi l -> length l <= hi - lo.
Proof.
  intros [Hs Hf]. revert lo Hf.
  induction l as [|x l IH]; intros lo Hf; simpl; [lia|].
  inversion Hs as [|? ? Sl Fx]; inversion Hf as [|? ? Hx Fl]; subst.
  assert (H : length l <= hi - S x).
  { apply IH; [exact Sl|]. rewrite Forall_forall in *.
    intros y Hy. specialize (Fx y Hy). specialize (Fl y Hy). lia. }
  lia.
Qed.

Lemma in_order_refl st : in_order st st.
Proof.
  split; [reflexivity|]. split; [lia|]. split; [auto|].
  exists []. rewrite app_nil_r. simpl.
  split; [reflexivity|]. split; apply ascending_nil.
Qed.

Lemma in_order_trans a b c : in_order a b -> in_order b c -> in_order a c.
Proof.
  intros (l1 & i1 & b1 & x1 & t1 & A1 & H1) (l2 & i2 & b2 & x2 & t2 & A2 & H2).
  split; [congruence|]. split; [lia|]. split.
  - intros H. rewrite l1 in b2. auto.
  - exists (x1 ++ x2). rewrite t2, t1, app_assoc, attempts_app, handlers_called_app.
    split; [reflexivity|]. split; eapply ascending_app; eauto.
Qed.

(** A step that keeps the cursor and calls no handler and begins no attempt. *)
Lemma in_order_quiet st st' ex :
  len st' = len st -> idx st' = idx st -> trace st' = trace st ++ ex ->
  attempts ex = [] -> handlers_called ex = [] -> in_order st st'.
Proof.
  intros Hl Hi Ht Ha Hh. split; [exact Hl|]. split; [lia|]. split; [lia|].
  exists ex. rewrite Ha, Hh. split; [exact Ht|]. split; apply ascending_nil.
Qed.

Lemma in_order_same_trace st st' :
  len st' = len st -> idx st' = idx st -> trace st' = trace st -> in_order st st'.
Proof.
  intros. apply in_order_quiet with (ex := []); auto. now rewrite app_nil_r.
Qed.

Section InOrder.

Variable C : Collab.

Lemma in_order_next lp err st :
  (forall s, in_order s (lp s)) -> in_order st (nextWithReqAndRes lp err st).
Proof.
  intros Hlp. unfold nextWithReqAndRes.
  destruct (truthy err && negb (writableEnded (res st))); [|apply Hlp].
  now apply in_order_quiet with (ex := [EvErrorSink err (req st) (res st)]).
Qed.

Lemma in_order_run_prog lp async p :
  (forall s, in_order s (lp s)) -> forall st, in_order st (run_prog lp async p st).
Proof.
  intros Hlp.
  induction p as [|e|k IH|err k IH|k IH|f IH]; intros st; simpl.
  - apply in_order_refl.
  - destruct async; [now apply in_order_same_trace|].
    now apply in_order_quiet with (ex := [EvUnhandled e]).
  - eapply in_order_trans; [|apply IH]. now apply in_order_same_trace.
  - eapply in_order_trans; [now apply in_order_next | apply IH].
  - now apply in_order_same_trace.
  - apply IH.
Qed.

(** The handler of entry [i], applied in the attempt at [i] that began at
    [base]. *)
Lemma in_order_applyHandler lp base i h st :
  (forall s, in_order s (lp s)) ->
  idx base = i -> i <= len base ->
  len st = len base -> idx st = S i -> trace st = trace base ++ [EvExtend i] ->
  in_order base (applyHandler lp i h st).
Proof.
  intros Hlp Hb Hi Hl Hs Ht.
  assert (A : in_order base (log (EvHandler i) st)).
  { split; [exact Hl|]. simpl. split; [lia|]. split; [lia|].
    exists [EvExtend i; EvHandler i]. rewrite Ht, <- app_assoc. simpl.
    rewrite Hb, Hs. split; [reflexivity|]. split; apply ascending_one. }
  destruct h as [[|] body | e]; simpl;
    (eapply in_order_trans; [exact A|]);
    try (now apply in_order_run_prog).
  now apply in_order_quiet
    with (ex := [EvErrorSink e (req (log (EvHandler i) st)) (res (log (EvHandler i) st))]).
Qed.

Lemma in_order_handle lp m st :
  (forall s, in_order s (lp s)) -> idx st <= len st ->
  in_order st (handle C lp (idx st) m (set_idx (S (idx st)) st)).
Proof.
  intros Hlp Hi. unfold handle.
  set (s0 := set_idx (S (idx st)) st).
  set (r1 := mkReq _ _ _ _ _).
  set (s1 := log (EvExtend (idx st)) (set_req r1 s0)).
  assert (H1 : forall s, len s = len st -> idx s = S (idx st) ->
                         trace s = trace st ++ [EvExtend (idx st)] -> in_order st s).
  { intros s Hl Hs Ht. split; [exact Hl|]. split; [lia|]. split; [lia|].
    exists [EvExtend (idx st)]. rewrite Ht, Hs. simpl.
    split; [reflexivity|]. split; [apply ascending_one | apply ascending_nil]. }
  assert (Hback : in_order st (lp (set_req (set_url (url (req s0)) r1) s1))).
  { eapply in_order_trans; [|apply Hlp]. now apply H1. }
  destruct (mtype m).
  - destruct (matchLoose C _ _); [|exact Hback].
    now apply in_order_applyHandler.
  - destruct (method_is r1 m); [|exact Hback].
    destruct (matchParams C _ _); [|exact Hback].
    now apply in_order_applyHandler.
Qed.

Lemma in_order_loop fuel : forall st, in_order st (loop C fuel st).
Proof.
  induction fuel as [|f IH]; intros st; simpl; [apply in_order_refl|].
  destruct (writableEnded (res st)); [apply in_order_refl|].
  destruct (Nat.leb_spec (idx st) (len st)) as [Hle|]; [|apply in_order_refl].
  destruct (nth_error (mw st) (idx st)) as [m|].
  - now apply in_order_handle.
  - split; [reflexivity|]. simpl. split; [lia|]. split; [lia|].
    exists [EvUnhandled (JObj None)]. simpl.
    split; [reflexivity|]. split; apply ascending_nil.
Qed.

Lemma in_order_loopT st : in_order st (loopT C st).
Proof. apply in_order_loop. Qed.

Lemma in_order_run_task t st : in_order st (run_task C t st).
Proof.
  destruct t as [async k | e]; simpl.
  - apply in_order_run_prog, in_order_loopT.
  - apply in_order_next, in_order_loopT.
Qed.

Lemma in_order_run_schedule sched : forall st, in_order st (run_schedule C sched st).
Proof.
  induction sched as [|n sched IH]; intros st; simpl; [apply in_order_refl|].
  destruct (nth_error (pending st) n) as [t|]; [|apply IH].
  eapply in_order_trans; [|apply IH].
  eapply in_order_trans; [|apply in_order_run_task].
  now apply in_order_same_trace.
Qed.

End InOrder.

(** X4.  Within one request that no mount takes, whatever the handlers do and in
    whatever order the queued continuations run: the entries attempted are
    strictly increasing in registration order, so no entry is attempted
    twice; so are the entries whose handler is called; none lies beyond the
    terminal entry, and so there are at most [length middleware + 1] attempts
    and handler calls. *)
Theorem walk_is_in_order (C : Collab) (a : App) (rq : Req) (rs : Res)
    (sched : list nat) :
  delegates a rq = None ->
  StronglySorted lt (attempts (trace (snd (serve C a rq rs sched)))) /\
  StronglySorted lt (handlers_called (trace (snd (serve C a rq rs sched)))) /\
  Forall (fun i => i <= length (middleware a))
         (attempts (trace (snd (serve C a rq rs sched)))) /\
  Forall (fun i => i <= length (middleware a))
         (handlers_called (trace (snd (serve C a rq rs sched)))) /\
  length (attempts (trace (snd (serve C a rq rs sched)))) <= S (length (middleware a)) /\
  length (handlers_called (trace (snd (serve C a rq rs sched))))
    <= S (length (middleware a)).
Proof.
  intros Hd. unfold serve.
  rewrite (surjective_pairing (handler C a rq rs [])). simpl snd.
  rewrite handler_walks_first_state by exact Hd.
  destruct (in_order_trans _ _ _
              (in_order_loopT C (first_state a rq rs []))
              (in_order_run_schedule C sched (loopT C (first_state a rq rs []))))
    as (_ & _ & B & ex & -> & A & H).
  simpl in B, A, H |- *.
  rewrite length_app, Nat.add_sub in B. specialize (B ltac:(lia)).
  pose proof (ascending_length _ _ _ A) as LA.
  pose proof (ascending_length _ _ _ H) as LH.
  destruct A as [SA FA], H as [SH FH].
  repeat split; auto; try lia;
    (eapply Forall_impl; [|eassumption]); cbv beta; intros; lia.
Qed.

Lemma walk_is_in_order_witness :
  StronglySorted lt
    (attempts (trace (snd (serve Samples.C Samples.zero_app (Samples.get "/")
                                 Samples.fresh [])))) /\
  StronglySorted lt
    (handlers_called (trace (snd (serve Samples.C Samples.zero_app (Samples.get "/")
                                        Samples.fresh [])))) /\
  Forall (fun i => i <= length (middleware Samples.zero_app))
    (attempts (trace (snd (serve Samples.C Samples.zero_app (Samples.get "/")
                                 Samples.fresh [])))) /\
  Forall (fun i => i <= length (middleware Samples.zero_app))
    (handlers_called (trace (snd (serve Samples.C Samples.zero_app (Samples.get "/")
                                        Samples.fresh [])))) /\
  length (attempts (trace (snd (serve Samples.C Samples.zero_app (Samples.get "/")
                                      Samples.fresh []))))
    <= S (length (middleware Samples.zero_app)) /\
  length (handlers_called (trace (snd (serve Samples.C Samples.zero_app (Samples.get "/")
                                             Samples.fresh []))))
    <= S (length (middleware Samples.zero_app)).
Proof.
  apply (walk_is_in_order Samples.C Samples.zero_app (Samples.get "/")
           Samples.fresh []). reflexivity.
Defined.

(** ** The not-found handler and the pushed terminal entries *)

Lemma repeat_snoc {A : Type} (x : A) n : repeat x n ++ [x] = repeat x (S n).
Proof. induction n as [|n IH]; simpl; [reflexivity | now rewrite IH]. Qed.

Lemma nth_error_repeat_some {A : Type} (x : A) n j :
  j < n -> nth_error (repeat x n) j = Some x.
Proof.
  revert j. induction n as [|n IH]; intros [|j] H; simpl; auto; try lia.
  apply IH. lia.
Qed.

Section Terminals.

Variable C : Collab.
Variable t : Middleware.
Variables (async : bool) (err : JsVal).
Hypothesis t_type : mtype t = TMw.
Hypothesis t_path : mpath t = "/".
Hypothesis t_handler : mhandler t = UserHandler async (PNext err PRet).
Hypothesis err_falsy : truthy err = false.
Hypothesis root_matches :
  forall u, String.prefix "/" u = true -> matchLoose C "/" (pathname_of C u) = true.

(** A run of [r] terminal entries whose handler passes on: each is called. *)
Lemma terminal_chain r : forall st,
  ended st = false -> idx st + r = S (len st) ->
  (forall j, j < r -> nth_error (mw st) (idx st + j) = Some t) ->
  String.prefix "/" (url (req st)) = true ->
  handlers_called (trace (loopT C st)) = handlers_called (trace st) ++ seq (idx st) r /\
  sink_calls (trace (loopT C st)) = sink_calls (trace st) /\
  pending (loopT C st) = pending st /\ ended (loopT C st) = false.
Proof.
  induction r as [|r IH]; intros st He Hr Hnth Hu.
  - rewrite loopT_unfold. unfold ended in He. rewrite He.
    destruct (Nat.leb_spec (idx st) (len st)); [lia|].
    simpl. rewrite app_nil_r. auto.
  - rewrite loopT_unfold. pose proof He as He'. unfold ended in He'. rewrite He'.
    destruct (Nat.leb_spec (idx st) (len st)); [|lia].
    pose proof (Hnth 0 ltac:(lia)) as H0. rewrite Nat.add_0_r in H0. rewrite H0.
    rewrite handle_match.
    2:{ unfold satisfied. rewrite t_type, t_path. simpl. now apply root_matches. }
    rewrite t_handler.
    assert (E : forall s, applyHandler (loopT C) (idx st)
                            (UserHandler async (PNext err PRet)) s
                          = loopT C (log (EvHandler (idx st)) s)).
    { intros s. destruct async; simpl; unfold nextWithReqAndRes;
        now rewrite err_falsy. }
    rewrite E.
    set (s1 := log (EvHandler (idx st)) (matched C (idx st) t (set_idx (S (idx st)) st))).
    assert (F : trace s1 = trace st ++ [EvExtend (idx st); EvHandler (idx st)]
                /\ idx s1 = S (idx st) /\ len s1 = len st /\ mw s1 = mw st
                /\ ended s1 = false /\ pending s1 = pending st
                /\ url (req s1) = strip_prefix (url (req st)) "/").
    { unfold s1, matched, ended. rewrite t_type, <- t_path. simpl.
      rewrite <- app_assoc. simpl. repeat split; auto. }
    destruct F as (Ft & Fi & Fl & Fm & Fe & Fp & Fu).
    destruct (IH s1) as (h & s & p & e); auto.
    + rewrite Fi, Fl. lia.
    + intros j Hj. rewrite Fm, Fi.
      replace (S (idx st) + j) with (idx st + S j) by lia. apply Hnth. lia.
    + rewrite Fu. apply strip_prefix_slash.
    + rewrite h, s, p, Ft, Fi, handlers_called_app, sink_calls_app. simpl.
      rewrite <- app_assoc, app_nil_r. auto.
Qed.

End Terminals.

(** X5.  Given that the pattern "/" loosely matches the pathname of every url
    that begins with a slash: a [noMatchHandler] that passes on ([next()], or
    [next] with any falsy value) runs once for the terminal entry of the
    request and once more for every terminal entry that earlier requests left
    on the stored list.  On a list of [entries] followed by [n] such entries,
    a request on an open response, which no mount takes, whose url begins with
    a slash and which satisfies none of [entries], gets it called [n + 1]
    times.  The Error Sink is not called and the response stays open. *)
Theorem passing_not_found_handler_runs_per_terminal (C : Collab) (a : App)
    (rq : Req) (rs : Res) (sched : list nat) (entries : list Middleware)
    (n : nat) (async : bool) (err : JsVal) :
  delegates a rq = None -> writableEnded rs = false ->
  noMatchHandler a = UserHandler async (PNext err PRet) -> truthy err = false ->
  (forall u, String.prefix "/" u = true ->
             matchLoose C "/" (pathname_of C u) = true) ->
  String.prefix "/" (url rq) = true ->
  middleware a = entries ++ repeat (noMatchMW a) n ->
  Forall (fun m => satisfied C m (method rq) (url rq) = false) entries ->
  handlers_called (trace (snd (serve C a rq rs sched))) = seq (length entries) (S n) /\
  sink_calls (trace (snd (serve C a rq rs sched))) = [] /\
  ended (snd (serve C a rq rs sched)) = false.
Proof.
  intros Hd He Hnm Herr Hroot Hu Hmw Hall.
  unfold serve. rewrite (surjective_pairing (handler C a rq rs [])). simpl snd.
  rewrite handler_walks_first_state by exact Hd.
  set (st0 := first_state a rq rs []).
  assert (Hlist : mw st0 = entries ++ repeat (noMatchMW a) (S n)).
  { simpl. now rewrite Hmw, <- app_assoc, repeat_snoc. }
  assert (Hlen : len st0 = length entries + n).
  { simpl. rewrite Hmw, !length_app, repeat_length. simpl. lia. }
  assert (E0 : ended st0 = false) by (unfold ended; simpl; now rewrite ended_powered).
  rewrite (loopT_misses C (length entries) st0); auto.
  2:{ simpl idx. lia. }
  2:{ rewrite Hlist, length_app. simpl. lia. }
  2:{ intros j m Hj Hm. rewrite Hlist in Hm. simpl in Hm.
      rewrite nth_error_app1 in Hm by exact Hj.
      rewrite Forall_forall in Hall. eapply Hall, nth_error_In, Hm. }
  destruct (misses_spec C (length entries) st0)
    as (u & me & i & w & l & o & r & p & tr).
  { rewrite Hlist, length_app. simpl. lia. }
  simpl in u, i, p, tr.
  destruct (terminal_chain C (noMatchMW a) async err eq_refl eq_refl Hnm Herr Hroot
              (S n) (misses C (length entries) st0))
    as (h & s & pe & e).
  - unfold ended. now rewrite r.
  - rewrite i, l, Hlen. lia.
  - intros j Hj. rewrite w, i, Hlist, nth_error_app2 by lia.
    replace (length entries + j - length entries) with j by lia.
    now apply nth_error_repeat_some.
  - now rewrite u.
  - rewrite run_schedule_idle by (rewrite pe; exact p).
    rewrite h, s, i, tr, e. simpl.
    rewrite handlers_called_extends, sink_calls_extends. auto.
Qed.

Lemma SpecModel_root_matches u :
  String.prefix "/" u = true ->
  matchLoose Samples.C "/" (pathname_of Samples.C u) = true.
Proof.
  destruct u as [|c s]; [discriminate|]. rewrite prefix_slash_cons. intros H.
  apply slash_code in H. subst c. simpl.
  unfold SpecModel.matchLoose. simpl. apply orb_true_r.
Qed.

Lemma passing_not_found_handler_runs_per_terminal_witness :
  handlers_called
    (trace (snd (serve Samples.C
                   (handle_all Samples.C Samples2.pass_app
                      [(Samples.get "/a", Samples.fresh); (Samples.get "/b", Samples.fresh)])
                   (Samples.get "/c") Samples.fresh []))) = seq 1 3 /\
  sink_calls
    (trace (snd (serve Samples.C
                   (handle_all Samples.C Samples2.pass_app
                      [(Samples.get "/a", Samples.fresh); (Samples.get "/b", Samples.fresh)])
                   (Samples.get "/c") Samples.fresh []))) = [] /\
  ended
    (snd (serve Samples.C
            (handle_all Samples.C Samples2.pass_app
               [(Samples.get "/a", Samples.fresh); (Samples.get "/b", Samples.fresh)])
            (Samples.get "/c") Samples.fresh [])) = false.
Proof.
  apply (passing_not_found_handler_runs_per_terminal Samples.C
           (handle_all Samples.C Samples2.pass_app
              [(Samples.get "/a", Samples.fresh); (Samples.get "/b", Samples.fresh)])
           (Samples.get "/c") Samples.fresh []
           (middleware Samples2.pass_app) 2 false JUndefined);
    try reflexivity.
  - exact SpecModel_root_matches.
  - repeat constructor.
Defined.

(** ** Edges of [handler] *)

(** X6.  With the X-Powered-By header disabled, a request that no mount takes
    and whose response is already finished when it arrives: nothing is
    attempted or called, now or later, and the response is left as it is; yet
    the terminal entry is pushed on the stored list. *)
Theorem finished_on_arrival (C : Collab) (a : App) (rq : Req) (rs : Res)
    (sched : list nat) :
  xPoweredBy a = false ->
  delegates a rq = None -> writableEnded rs = true ->
  trace (snd (serve C a rq rs sched)) = [] /\
  res (snd (serve C a rq rs sched)) = rs /\
  req (snd (serve C a rq rs sched)) = rq /\
  pending (snd (serve C a rq rs sched)) = [] /\
  middleware (fst (serve C a rq rs sched)) = middleware a ++ [noMatchMW a].
Proof.
  intros Hx Hd He.
  assert (P : powered a rs = rs) by (unfold powered; now rewrite Hx).
  assert (E : snd (serve C a rq rs sched) = first_state a rq rs []).
  { unfold serve. rewrite (surjective_pairing (handler C a rq rs [])). simpl snd.
    rewrite handler_walks_first_state by exact Hd.
    rewrite loopT_finished by (unfold ended; simpl; now rewrite ended_powered).
    now apply run_schedule_idle. }
  rewrite E. simpl. rewrite P. repeat split.
  unfold serve. rewrite handler_walks by exact Hd. reflexivity.
Qed.

Lemma finished_on_arrival_witness :
  trace (snd (serve Samples.C Samples2.plain_app (Samples.get "/users")
                    (mkRes true 200 []) [0])) = [] /\
  res (snd (serve Samples.C Samples2.plain_app (Samples.get "/users")
                  (mkRes true 200 []) [0])) = mkRes true 200 [] /\
  req (snd (serve Samples.C Samples2.plain_app (Samples.get "/users")
                  (mkRes true 200 []) [0])) = Samples.get "/users" /\
  pending (snd (serve Samples.C Samples2.plain_app (Samples.get "/users")
                      (mkRes true 200 []) [0])) = [] /\
  middleware (fst (serve Samples.C Samples2.plain_app (Samples.get "/users")
                         (mkRes true 200 []) [0]))
  = middleware Samples2.plain_app ++ [noMatchMW Samples2.plain_app].
Proof.
  apply (finished_on_arrival Samples.C Samples2.plain_app (Samples.get "/users")
           (mkRes true 200 []) [0]); reflexivity.
Defined.

Lemma startsWith_empty u : startsWith u "" = true.
Proof. now destruct u. Qed.

(** X7.  A mount under the empty path blocks delegation: every url starts with
    the empty string, [find] answers it unless an earlier key is a prefix, and
    the empty string is falsy.  The request is then walked by the parent, even
    when a later mount path is a prefix of the url. *)
Theorem empty_mount_path_blocks_delegation (a : App) (rq : Req)
    (l1 l2 : list (string * App)) (sub : App) :
  apps a = l1 ++ ("", sub) :: l2 ->
  Forall (fun kv => startsWith (url rq) (fst kv) = false) l1 ->
  delegates a rq = None.
Proof.
  intros Ha Hall. unfold delegates, find_subappPath. rewrite Ha. clear Ha.
  assert (F : find (fun kv => startsWith (url rq) (fst kv)) (l1 ++ ("", sub) :: l2)
              = Some ("", sub)).
  { induction l1 as [|kv l IH]; simpl.
    - now rewrite startsWith_empty.
    - inversion Hall as [|? ? Hkv Hl]; subst. rewrite Hkv. now apply IH. }
  now rewrite F.
Qed.

Lemma empty_mount_path_blocks_delegation_witness :
  delegates Samples2.empty_mount_app (Samples.get "/api/users") = None.
Proof.
  apply (empty_mount_path_blocks_delegation Samples2.empty_mount_app
           (Samples.get "/api/users") [] [("/api", Samples.api_app)] Samples.api_app).
  - reflexivity.
  - constructor.
Defined.

(** ** What the first handler finds *)

Lemma misses_params (C : Collab) n : forall st,
  params (req (misses C n st)) = params (req st).
Proof.
  induction n as [|n IH]; intros st; simpl; [reflexivity|].
  destruct (nth_error (mw st) (idx st)); [|reflexivity].
  now rewrite IH.
Qed.

(** X8.  The request and response as the handler of the first satisfied entry
    finds them, read by a handler that looks at them first.  [url] is the
    arrival url stripped of the entry's path, [originalUrl] the arrival url,
    [path] the pathname of the stripped url.  A route has [params] set from
    the arrival pathname and the status code reset to 200; a middleware finds
    both as they arrived.  The response is open, with the headers of the
    X-Powered-By step. *)
Theorem first_handler_finds (C : Collab) (a : App) (rq : Req) (rs : Res)
    (sched : list nat) (k : nat) (m : Middleware) (async : bool)
    (f : Req -> Res -> prog) :
  delegates a rq = None -> writableEnded rs = false ->
  nth_error (middleware a ++ [noMatchMW a]) k = Some m ->
  satisfied C m (method rq) (url rq) = true ->
  (forall j m', j < k -> nth_error (middleware a ++ [noMatchMW a]) j = Some m' ->
                satisfied C m' (method rq) (url rq) = false) ->
  mhandler m = UserHandler async (PRead f) ->
  exists st1,
    snd (serve C a rq rs sched)
    = run_schedule C sched (run_prog (loopT C) async (f (req st1) (res st1)) st1) /\
    url (req st1) = strip_prefix (url rq) (mpath m) /\
    originalUrl (req st1) = Some (url rq) /\
    path (req st1) = Some (pathname_of C (strip_prefix (url rq) (mpath m))) /\
    method (req st1) = method rq /\
    params (req st1) = match mtype m with
                       | TRoute => getURLParams C (mpath m) (pathname_of C (url rq))
                       | TMw => params rq
                       end /\
    statusCode (res st1) = match mtype m with
                           | TRoute => 200%Z
                           | TMw => statusCode rs
                           end /\
    writableEnded (res st1) = false /\
    headers (res st1) = headers (powered a rs).
Proof.
  intros Hd He Hm Hsat Hmiss Hh.
  assert (Hk : k < length (middleware a ++ [noMatchMW a])).
  { apply nth_error_Some. congruence. }
  set (st0 := first_state a rq rs []).
  assert (E0 : ended st0 = false) by (unfold ended; simpl; now rewrite ended_powered).
  pose proof (loopT_first_match C k m st0 E0) as L. simpl in L.
  specialize (L ltac:(lia) Hm Hsat Hmiss).
  destruct (misses_spec C k st0) as (u & me & i & w & l & o & r & p & t);
    [simpl; lia|].
  pose proof (misses_params C k st0) as pa.
  simpl in u, me, r, pa.
  exists (log (EvHandler k) (matched C k m (set_idx (S k) (misses C k st0)))).
  split.
  - unfold serve. rewrite (surjective_pairing (handler C a rq rs [])). simpl snd.
    rewrite handler_walks_first_state by exact Hd. fold st0. rewrite L, Hh.
    destruct async; reflexivity.
  - unfold matched, attempt_req.
    destruct (mtype m); simpl; rewrite ?u, ?me, ?r, ?pa, ?ended_powered;
      repeat split; auto; unfold powered; destruct (xPoweredBy a); reflexivity.
Qed.

Lemma first_handler_finds_witness :
  exists st1,
    snd (serve Samples.C Samples2.read_app (Samples.get "/users/42") Samples.fresh [])
    = run_schedule Samples.C []
        (run_prog (loopT Samples.C) false
           (if url (req st1) =? "/" then PEnd PRet else PNext JUndefined PRet) st1) /\
    url (req st1) = "/" /\
    originalUrl (req st1) = Some "/users/42" /\
    path (req st1) = Some "/" /\
    method (req st1) = "GET" /\
    params (req st1) = [("id", "42")] /\
    statusCode (res st1) = 200%Z /\
    writableEnded (res st1) = false /\
    headers (res st1) = [("X-Powered-By", "tinyhttp")].
Proof.
  apply (first_handler_finds Samples.C Samples2.read_app (Samples.get "/users/42")
           Samples.fresh [] 0
           (mkMiddleware "/users/:id" (Some "GET") Samples2.h_read TRoute) false
           (fun r _ => if url r =? "/" then PEnd PRet else PNext JUndefined PRet));
    try reflexivity.
  intros j m' Hj. lia.
Defined.

(** ** Objects used as maps *)

Lemma obj_get_set_same {V : Type} k (v : V) o : obj_get k (obj_set k v o) = Some v.
Proof.
  induction o as [|[k' v'] o IH]; simpl.
  - now rewrite String.eqb_refl.
  - destruct (k' =? k) eqn:E; simpl; [now rewrite String.eqb_refl | now rewrite E].
Qed.

Lemma obj_get_set_other {V : Type} k k' (v : V) o :
  k' <> k -> obj_get k' (obj_set k v o) = obj_get k' o.
Proof.
  intros N. induction o as [|[q w] o IH]; simpl.
  - apply String.eqb_neq in N. now rewrite String.eqb_sym, N.
  - destruct (q =? k) eqn:E; simpl.
    + apply String.eqb_eq in E. subst q.
      apply String.eqb_neq in N. now rewrite String.eqb_sym, N.
    + now rewrite IH.
Qed.

Lemma obj_get_app {V : Type} k (l1 l2 : Obj V) :
  obj_get k (l1 ++ l2)
  = match obj_get k l1 with Some v => Some v | None => obj_get k l2 end.
Proof.
  induction l1 as [|[q w] l1 IH]; simpl; [reflexivity|].
  now destruct (q =? k).
Qed.

Lemma obj_get_overridden {V : Type} k (a b : Obj V) :
  obj_get k (map (fun kv => (fst kv, match obj_get (fst kv) b with
                                     | Some v => v
                                     | None => snd kv
                                     end)) a)
  = match obj_get k a with
    | Some w => Some (match obj_get k b with Some v => v | None => w end)
    | None => None
    end.
Proof.
  induction a as [|[q w] a IH]; simpl; [reflexivity|].
  destruct (q =? k) eqn:Q; [|exact IH].
  apply String.eqb_eq in Q. now subst q.
Qed.

Lemma obj_get_only_new {V : Type} k (a b : Obj V) :
  obj_get k a = None ->
  obj_get k (filter (fun kv => negb (obj_has (fst kv) a)) b) = obj_get k b.
Proof.
  intros Ha. induction b as [|[q w] b IH]; simpl; [reflexivity|].
  destruct (q =? k) eqn:Q.
  - apply String.eqb_eq in Q. subst q. unfold obj_has. rewrite Ha. simpl.
    now rewrite String.eqb_refl.
  - destruct (negb (obj_has q a)); simpl; [now rewrite Q | exact IH].
Qed.

Lemma obj_get_spread {V : Type} k (a b : Obj V) :
  obj_get k (spread a b)
  = match obj_get k b with Some v => Some v | None => obj_get k a end.
Proof.
  unfold spread. rewrite obj_get_app, obj_get_overridden.
  destruct (obj_get k a) as [w|] eqn:Ha.
  - now destruct (obj_get k b).
  - rewrite obj_get_only_new by exact Ha. now destruct (obj_get k b).
Qed.

(** ** Settings *)

(** X9.  The X-Powered-By header is governed by the setting of that name alone,
    and it must be the boolean [true]: [enable] turns the header on,
    [disable] and [set] with any other value turn it off, and setting another
    key leaves the whole dispatcher unchanged. *)
Theorem xPoweredBy_setting (L E : Type) (app : Application L E) (rs : Res) :
  powered (dispatcher (enable "xPoweredBy" app)) rs
    = setHeader "X-Powered-By" "tinyhttp" rs /\
  powered (dispatcher (disable "xPoweredBy" app)) rs = rs /\
  (forall v, v <> JBool true ->
             powered (dispatcher (set "xPoweredBy" v app)) rs = rs) /\
  (forall k v, k <> "xPoweredBy" -> k <> "__proto__" ->
               dispatcher (set k v app) = dispatcher app).
Proof.
  unfold powered, dispatcher, enable, disable, set, settings_xPoweredBy. simpl.
  rewrite !obj_get_set_same. repeat split.
  - intros v Hv. rewrite obj_get_set_same. destruct v as [| |[|]| | |]; congruence.
  - intros k v Hk _. rewrite obj_get_set_other by congruence. reflexivity.
Qed.

Lemma xPoweredBy_setting_witness :
  powered (dispatcher (set "xPoweredBy" (JNum 1) Samples2.site)) Samples.fresh
  = Samples.fresh /\
  dispatcher (set "subdomainOffset" (JNum 2) Samples2.site) = dispatcher Samples2.site.
Proof.
  destruct (xPoweredBy_setting string nat Samples2.site Samples.fresh)
    as (_ & _ & Hv & Hk).
  split; [apply Hv | apply Hk]; discriminate.
Defined.

(** X10.  A new application sends the header when it is given no settings, and
    does not when it is given a settings object without [xPoweredBy]. *)
Theorem constructor_settings (L E : Type) (dflt : ErrorHandler) (oe : option ErrorHandler)
    (nm : option Handler) (s : Obj JsVal) (rs : Res) :
  powered (dispatcher (@construct L E dflt oe nm None)) rs
    = setHeader "X-Powered-By" "tinyhttp" rs /\
  (obj_get "xPoweredBy" s = None ->
   powered (dispatcher (@construct L E dflt oe nm (Some s))) rs = rs).
Proof.
  split; [reflexivity|].
  intros H. unfold powered, dispatcher, construct, settings_xPoweredBy. simpl.
  now rewrite H.
Qed.

Lemma constructor_settings_witness :
  powered (dispatcher (@construct string nat SpecModel.onErrorHandler None None
                         (Some [("networkExtensions", JBool true)])))
          Samples.fresh = Samples.fresh.
Proof.
  apply (constructor_settings string nat SpecModel.onErrorHandler None None
           [("networkExtensions", JBool true)] Samples.fresh).
  reflexivity.
Defined.

(** X11.  Settings are last-write-wins per key and independent across keys:
    whatever [set], [enable] and [disable] did before, the last of them on a
    key decides its value, and no other key changes. *)
Theorem settings_last_write (L E : Type) (app : Application L E) (k : string)
    (v : JsVal) :
  k <> "__proto__" ->
  obj_get k (a_settings (set k v app)) = Some v /\
  obj_get k (a_settings (enable k app)) = Some (JBool true) /\
  obj_get k (a_settings (disable k app)) = Some (JBool false) /\
  (forall k', k' <> k ->
     obj_get k' (a_settings (set k v app)) = obj_get k' (a_settings app) /\
     obj_get k' (a_settings (enable k app)) = obj_get k' (a_settings app) /\
     obj_get k' (a_settings (disable k app)) = obj_get k' (a_settings app)).
Proof.
  intros _. unfold set, enable, disable. simpl. rewrite !obj_get_set_same.
  repeat split; auto; now apply obj_get_set_other.
Qed.

Lemma settings_last_write_witness :
  obj_get "xPoweredBy"
    (a_settings (disable "freshnessTesting" Samples2.site))
  = obj_get "xPoweredBy" (a_settings Samples2.site).
Proof.
  destruct (settings_last_write string nat Samples2.site "freshnessTesting" JNull)
    as (_ & _ & _ & H); [discriminate|].
  apply (H "xPoweredBy"). discriminate.
Defined.

(** ** [render] and [engine] *)

Lemma string_length_app (a b : string) :
  String.length (a ++ b) = String.length a + String.length b.
Proof. induction a as [|c a IH]; simpl; [reflexivity | now rewrite IH]. Qed.

Lemma endsWith_app (a s : string) : endsWith (a ++ s) s = true.
Proof.
  unfold endsWith. rewrite string_length_app.
  replace (String.length a + String.length s - String.length s)
    with (String.length a) by lia.
  rewrite substring_from_app, String.eqb_refl.
  rewrite andb_true_r. apply Nat.leb_le. lia.
Qed.

Lemma lastIndexOf_dot_app (base suf : string) :
  lastIndexOf_dot suf = None ->
  lastIndexOf_dot (base ++ String "." suf) = Some (String.length base).
Proof.
  intros H. induction base as [|c base IH]; simpl.
  - now rewrite H.
  - now rewrite IH.
Qed.

Lemma slice_after_last_dot_app (base suf : string) :
  lastIndexOf_dot suf = None ->
  slice_after_last_dot (base ++ String "." suf) = suf.
Proof.
  intros H. unfold slice_after_last_dot. rewrite lastIndexOf_dot_app by exact H.
  change (S (String.length base)) with (1 + String.length base).
  replace (1 + String.length base) with (String.length (base ++ ".")).
  - replace (base ++ String "." suf)%string with ((base ++ ".") ++ suf)%string.
    + apply substring_from_app.
    + clear. induction base as [|c base IH]; simpl; [reflexivity | now rewrite IH].
  - rewrite string_length_app. simpl. lia.
Qed.

Lemma render_ext_nonempty {L R : Type} file (o : TemplateEngineOptions L R) :
  (render_ext file o =? "") = false.
Proof.
  unfold render_ext. simpl.
  destruct (or_string (ext o) (slice_after_last_dot file) =? "") eqn:E;
    [reflexivity | exact E].
Qed.

Lemma render_viewsFolder_nonempty {L R : Type} P (o : TemplateEngineOptions L R) :
  (render_viewsFolder P o =? "") = false.
Proof.
  assert (D : ((cwd P ++ "/views")%string =? "") = false) by now destruct (cwd P).
  unfold render_viewsFolder, or_string.
  destruct (viewsFolder o) as [s|]; [|exact D].
  destruct (s =? "") eqn:E; [exact D | exact E].
Qed.

(** X12.  The extension [render] works with, when the options carry none.  For a
    file name with a dot it is what follows the last dot, and a name that
    ends in a dot, or the empty name, falls back to "ejs".  A name without any
    dot is taken whole as its own extension: [lastIndexOf] answers -1 and
    [slice(0)] is the name. *)
Theorem render_ext_of_file (L R : Type) (o : TemplateEngineOptions L R)
    (base suf file : string) :
  ext o = None ->
  (lastIndexOf_dot suf = None ->
   render_ext (base ++ String "." suf) o = if suf =? "" then "ejs" else suf) /\
  (lastIndexOf_dot file = None ->
   render_ext file o = if file =? "" then "ejs" else file).
Proof.
  intros He. unfold render_ext. rewrite He. simpl. split; intros H.
  - now rewrite slice_after_last_dot_app.
  - unfold slice_after_last_dot. now rewrite H.
Qed.

Lemma render_ext_of_file_witness :
  render_ext ("views/index" ++ String "." "pug") Samples2.no_options = "pug" /\
  render_ext "index" Samples2.no_options = "index".
Proof.
  destruct (render_ext_of_file string nat Samples2.no_options "views/index" "pug"
              "index" eq_refl) as [H1 H2].
  split; [apply (H1 eq_refl) | apply (H2 eq_refl)].
Defined.

(** X13.  What [render] hands to the engine.  The engine is the one registered
    under the resolved extension, which is never empty and is [options.ext]
    whenever that is given and not empty.  The destination is always
    [path.join(viewsFolder, file)]: the views folder is never empty, since it
    defaults to [cwd/views], so the branch that passes the bare file name is
    never taken.  The file name ends with a dot and the extension, appended
    only if not already there.  The render options are passed through. *)
Theorem render_engine_call (L R E : Type) (P : Process) (app : Application L E)
    (file : string) (data : Obj L) (o : TemplateEngineOptions L R) (fn : E) :
  obj_get (render_ext file o) (a_engines app) = Some fn ->
  snd (render P app file data o)
  = Some (mkEngineCall fn
            (path_join P (render_viewsFolder P o) (render_file file (render_ext file o)))
            (spread (spread data (a_locals app)) (render_locals o))
            (renderOptions o)) /\
  endsWith (render_file file (render_ext file o)) ("." ++ render_ext file o) = true /\
  render_ext file o <> "" /\
  (forall e, ext o = Some e -> e <> "" -> render_ext file o = e) /\
  (viewsFolder o = None -> render_viewsFolder P o = (cwd P ++ "/views")%string).
Proof.
  intros Hfn. split; [|split; [|split; [|split]]].
  - unfold render. simpl. rewrite Hfn, render_viewsFolder_nonempty. reflexivity.
  - unfold render_file.
    destruct (endsWith file ("." ++ render_ext file o)) eqn:Hends; [exact Hends|].
    apply endsWith_app.
  - apply String.eqb_neq, render_ext_nonempty.
  - intros e He Hne. apply String.eqb_neq in Hne.
    unfold render_ext, or_string. rewrite He, Hne, Hne. reflexivity.
  - intros Hv. unfold render_viewsFolder. now rewrite Hv.
Qed.

Lemma render_engine_call_witness :
  snd (render Samples2.proc Samples2.site "index.ejs" [] Samples2.no_options)
  = Some (mkEngineCall 7 "/srv/views/index.ejs" [("title", "site"); ("lang", "en")] None).
Proof.
  apply (render_engine_call string nat nat Samples2.proc Samples2.site "index.ejs"
           [] Samples2.no_options 7). reflexivity.
Defined.

(** X14.  The locals the engine gets: for each name, the value of
    [options._locals] if it has one, else that of the application's [locals],
    else that of the [data] given to [render].  The application's locals
    override the data of the call. *)
Theorem render_locals_precedence (L R E : Type) (P : Process) (app : Application L E)
    (file : string) (data : Obj L) (o : TemplateEngineOptions L R)
    (call : EngineCall L R E) (k : string) :
  snd (render P app file data o) = Some call ->
  obj_get k (ec_locals call)
  = match obj_get k (render_locals o) with
    | Some v => Some v
    | None => match obj_get k (a_locals app) with
              | Some v => Some v
              | None => obj_get k data
              end
    end.
Proof.
  unfold render. simpl.
  destruct (obj_get (render_ext file o) (a_engines app)); [|discriminate].
  intros [= <-]. simpl. now rewrite !obj_get_spread.
Qed.

Lemma render_locals_precedence_witness :
  obj_get "title"
    (ec_locals (mkEngineCall (R := nat) 7 "/srv/views/index.ejs"
                  (spread (spread [("title", "page")] (a_locals Samples2.site)) [])
                  None))
  = Some "site".
Proof.
  apply (render_locals_precedence string nat nat Samples2.proc Samples2.site
           "index.ejs" [("title", "page")] Samples2.no_options
           (mkEngineCall 7 "/srv/views/index.ejs"
              (spread (spread [("title", "page")] (a_locals Samples2.site)) []) None)
           "title").
  reflexivity.
Defined.

(** X15.  Registering an engine.  After [engine(e, fn)] a [render] that resolves
    to the extension [e] calls [fn], whatever was registered under [e]
    before; a [render] that resolves to another extension is not affected. *)
Theorem engine_registration (L R E : Type) (P : Process) (app : Application L E)
    (file : string) (data : Obj L) (o : TemplateEngineOptions L R)
    (e : string) (fn : E) :
  e <> "__proto__" ->
  (render_ext file o = e ->
   exists call, snd (render P (engine e fn app) file data o) = Some call /\
                ec_engine call = fn) /\
  (render_ext file o <> e ->
   render P (engine e fn app) file data o = render P app file data o).
Proof.
  intros _. split; intros H.
  - unfold render, engine. simpl. rewrite H, obj_get_set_same.
    eexists. split; reflexivity.
  - unfold render, engine. simpl. now rewrite obj_get_set_other.
Qed.

Lemma engine_registration_witness :
  exists call,
    snd (render Samples2.proc (engine "pug" 9 Samples2.site) "index.pug" []
                Samples2.no_options) = Some call /\
    ec_engine call = 9.
Proof.
  destruct (engine_registration string nat nat Samples2.proc Samples2.site
              "index.pug" [] Samples2.no_options "pug" 9) as [H _].
  - discriminate.
  - apply H. reflexivity.
Defined.

(** X16.  [render] writes its defaults into the [options] object it was given.
    Given that object again, a later [render] keeps the extension and the
    views folder of the first call, whatever file it is asked for, and leaves
    the object as it is. *)
Theorem render_options_stick (L R E : Type) (P : Process)
    (app app' : Application L E) (file file' : string) (data data' : Obj L)
    (o : TemplateEngineOptions L R) :
  render_ext file' (fst (render P app file data o)) = render_ext file o /\
  render_viewsFolder P (fst (render P app file data o)) = render_viewsFolder P o /\
  fst (render P app' file' data' (fst (render P app file data o)))
  = fst (render P app file data o).
Proof.
  assert (A : render_ext file' (render_options P file o) = render_ext file o).
  { unfold render_ext at 1. simpl.
    rewrite render_ext_nonempty. cbv iota. now rewrite render_ext_nonempty. }
  assert (B : render_viewsFolder P (render_options P file o) = render_viewsFolder P o).
  { unfold render_viewsFolder at 1. simpl. now rewrite render_viewsFolder_nonempty. }
  unfold render. simpl. split; [exact A|]. split; [exact B|].
  unfold render_options at 1. rewrite A, B. unfold render_options. f_equal.
  unfold render_cache. simpl. destruct (cache o) as [[|]|]; simpl; auto;
    now destruct (production P).
Qed.

(** ** Handlers that hand nothing on *)

Lemma run_prog_silent lp async p :
  silent p -> forall st,
  Forall task_silent (pending st) ->
  trace (run_prog lp async p st) = trace st /\
  Forall task_silent (pending (run_prog lp async p st)).
Proof.
  induction 1 as [|k Hk IH|k Hk IH|f Hf IH]; intros st Hp; simpl.
  - auto.
  - exact (IH (set_res (end_res (res st)) st) Hp).
  - split; [reflexivity|]. apply Forall_app. split; [exact Hp|].
    constructor; [exact Hk | constructor].
  - exact (IH (req st) (res st) st Hp).
Qed.

Lemma Forall_remove_nth {A : Type} (P : A -> Prop) n : forall l,
  Forall P l -> Forall P (remove_nth n l).
Proof.
  induction n as [|n IH]; intros [|x l] H; simpl; auto;
    inversion H; subst; auto.
Qed.

Lemma run_schedule_silent (C : Collab) sched : forall st,
  Forall task_silent (pending st) ->
  trace (run_schedule C sched st) = trace st.
Proof.
  induction sched as [|n sched IH]; intros st Hp; simpl; [reflexivity|].
  destruct (nth_error (pending st) n) as [t|] eqn:E; [|now apply IH].
  assert (Ht : task_silent t).
  { rewrite Forall_forall in Hp. eapply Hp, nth_error_In, E. }
  destruct t as [async k | e]; [|contradiction]. simpl in Ht |- *.
  destruct (run_prog_silent (loopT C) async k Ht
              (set_pending (remove_nth n (pending st)) st)) as [T F].
  { simpl. now apply Forall_remove_nth. }
  rewrite IH by exact F. exact T.
Qed.

(** X17.  Only a continuation call or a throw makes the walk go on.  When the
    handler of the first satisfied entry does neither, in this turn or in any
    later one, it is the only handler called for the request: no later entry
    is attempted, the not-found handler and the Error Sink are never called,
    nothing is reported as unhandled. *)
Theorem silent_handler_ends_the_walk (C : Collab) (a : App) (rq : Req) (rs : Res)
    (sched : list nat) (k : nat) (m : Middleware) (async : bool) (body : prog) :
  delegates a rq = None -> writableEnded rs = false ->
  nth_error (middleware a ++ [noMatchMW a]) k = Some m ->
  satisfied C m (method rq) (url rq) = true ->
  (forall j m', j < k -> nth_error (middleware a ++ [noMatchMW a]) j = Some m' ->
                satisfied C m' (method rq) (url rq) = false) ->
  mhandler m = UserHandler async body -> silent body ->
  trace (snd (serve C a rq rs sched)) = map EvExtend (seq 0 (S k)) ++ [EvHandler k].
Proof.
  intros Hd He Hm Hsat Hmiss Hh Hs.
  destruct (serve_first_match C a rq rs sched k m Hd He Hm Hsat Hmiss)
    as (sm & -> & t & i & en & p & _).
  rewrite Hh.
  assert (A : applyHandler (loopT C) k (UserHandler async body) sm
              = run_prog (loopT C) async body (log (EvHandler k) sm))
    by now destruct async.
  rewrite A.
  destruct (run_prog_silent (loopT C) async body Hs (log (EvHandler k) sm)) as [T F].
  { simpl. rewrite p. constructor. }
  rewrite run_schedule_silent by exact F.
  rewrite T. simpl. now rewrite t.
Qed.

Lemma silent_handler_ends_the_walk_witness :
  trace (snd (serve Samples.C Samples2.late_app (Samples.get "/x") Samples.fresh [0; 0]))
  = map EvExtend (seq 0 1) ++ [EvHandler 0].
Proof.
  apply (silent_handler_ends_the_walk Samples.C Samples2.late_app (Samples.get "/x")
           Samples.fresh [0; 0] 0
           (mkMiddleware "/" None Samples2.h_late_end TMw) true
           (PLater (PRead (fun _ s => if writableEnded s then PRet else PEnd PRet))));
    try reflexivity.
  - intros j m' Hj. lia.
  - constructor. constructor. intros r s.
    destruct (writableEnded s); repeat constructor.
Defined.

(** ** An error from the first handler *)

(** X18.  When the handler of the first satisfied entry passes a truthy error to
    its continuation and returns, the Error Sink is called once with that
    error and nothing else is: no later entry is attempted, and the not-found
    handler is not called.  The Error Sink gets the request as that handler
    found it, [url] stripped of the entry's path and [originalUrl] the url of
    arrival, and the response still open. *)
Theorem first_handler_error (C : Collab) (a : App) (rq : Req) (rs : Res)
    (sched : list nat) (k : nat) (m : Middleware) (async : bool) (err : JsVal) :
  delegates a rq = None -> writableEnded rs = false ->
  nth_error (middleware a ++ [noMatchMW a]) k = Some m ->
  satisfied C m (method rq) (url rq) = true ->
  (forall j m', j < k -> nth_error (middleware a ++ [noMatchMW a]) j = Some m' ->
                satisfied C m' (method rq) (url rq) = false) ->
  mhandler m = UserHandler async (PNext err PRet) -> truthy err = true ->
  exists rq' rs',
    trace (snd (serve C a rq rs sched))
    = map EvExtend (seq 0 (S k)) ++ [EvHandler k; EvErrorSink err rq' rs'] /\
    url rq' = strip_prefix (url rq) (mpath m) /\
    originalUrl rq' = Some (url rq) /\
    writableEnded rs' = false /\
    res (snd (serve C a rq rs sched)) = onError a err rq' rs'.
Proof.
  intros Hd He Hm Hsat Hmiss Hh Ht.
  assert (Hk : k < length (middleware a ++ [noMatchMW a])).
  { apply nth_error_Some. congruence. }
  set (st0 := first_state a rq rs []).
  assert (E0 : ended st0 = false) by (unfold ended; simpl; now rewrite ended_powered).
  pose proof (loopT_first_match C k m st0 E0) as L. simpl in L.
  specialize (L ltac:(lia) Hm Hsat Hmiss).
  destruct (misses_spec C k st0) as (u & me & i & w & l & o & r & p & t);
    [simpl; lia|].
  simpl in u, r, p, t, o.
  set (sm := matched C k m (set_idx (S k) (misses C k st0))) in *.
  assert (F : trace sm = map EvExtend (seq 0 (S k)) /\ pending sm = [] /\
              url (req sm) = strip_prefix (url rq) (mpath m) /\
              originalUrl (req sm) = Some (url rq) /\
              writableEnded (res sm) = false /\ onErr sm = onError a).
  { unfold sm, matched, attempt_req. rewrite seq_S, map_app.
    destruct (mtype m); simpl; rewrite ?t, ?u, ?r, ?p, ?o, ?ended_powered;
      repeat split; auto. }
  destruct F as (Ft & Fp & Fu & Fo & Fe & Fs).
  exists (req sm), (res sm).
  assert (S1 : snd (serve C a rq rs sched)
               = call_onError err (log (EvHandler k) sm)).
  { unfold serve. rewrite (surjective_pairing (handler C a rq rs [])). simpl snd.
    rewrite handler_walks_first_state by exact Hd. fold st0. rewrite L, Hh.
    assert (A : applyHandler (loopT C) k (UserHandler async (PNext err PRet)) sm
                = call_onError err (log (EvHandler k) sm)).
    { destruct async; simpl; unfold nextWithReqAndRes; simpl;
        now rewrite Ht, Fe. }
    rewrite A. apply run_schedule_idle. simpl. exact Fp. }
  rewrite S1. simpl. rewrite Ft, Fs, <- app_assoc. simpl. auto.
Qed.

Lemma first_handler_error_witness :
  exists rq' rs',
    trace (snd (serve Samples.C Samples2.failing_app (Samples.get "/api/users")
                      Samples.fresh []))
    = map EvExtend (seq 0 1) ++ [EvHandler 0; EvErrorSink (JStr "boom") rq' rs'] /\
    url rq' = "/users" /\
    originalUrl rq' = Some "/api/users" /\
    writableEnded rs' = false /\
    res (snd (serve Samples.C Samples2.failing_app (Samples.get "/api/users")
                    Samples.fresh []))
    = onError Samples2.failing_app (JStr "boom") rq' rs'.
Proof.
  apply (first_handler_error Samples.C Samples2.failing_app (Samples.get "/api/users")
           Samples.fresh [] 0
           (mkMiddleware "/api" None (UserHandler false (PNext (JStr "boom") PRet)) TMw)
           false (JStr "boom")); try reflexivity.
  intros j m' Hj. lia.
Defined.

(** ** Delegated requests *)

Lemma set_header_twice n v l : set_header n v (set_header n v l) = set_header n v l.
Proof.
  assert (R : same_header n n = true) by (unfold same_header; apply String.eqb_refl).
  induction l as [|[k w] l IH]; simpl.
  - now rewrite R.
  - destruct (same_header k n) eqn:E; simpl.
    + now rewrite R.
    + now rewrite E, IH.
Qed.

Lemma setHeader_twice n v r : setHeader n v (setHeader n v r) = setHeader n v r.
Proof. unfold setHeader. simpl. now rewrite set_header_twice. Qed.

(** A header set before under another spelling of the name is replaced. *)
Example setHeader_ignores_case :
  headers (setHeader "X-Powered-By" "tinyhttp"
             (mkRes false 200 [("etag", "1"); ("x-powered-by", "other")]))
  = [("etag", "1"); ("X-Powered-By", "tinyhttp")].
Proof. reflexivity. Qed.

(** X19.  A request on an open response that a mount takes, and that the
    mounted application walks itself, gets the terminal entry pushed on the
    mounted application's stored list.  The keys of [apps] and their order,
    the mounted application's own mounts and the parent's stored list stay as
    they were. *)
Theorem delegated_request_grows_mount (C : Collab) (a : App) (rq : Req) (rs : Res)
    (tr : list Event) (p : string) (sub : App) :
  writableEnded rs = false ->
  delegates a rq = Some (p, sub) -> delegates sub rq = None ->
  exists l1 l2 l1' l2' sub',
    apps a = l1 ++ (p, sub) :: l2 /\
    apps (fst (handler C a rq rs tr)) = l1' ++ (p, sub') :: l2' /\
    map fst l1' = map fst l1 /\ map fst l2' = map fst l2 /\
    middleware sub' = middleware sub ++ [noMatchMW sub] /\
    apps sub' = apps sub /\
    middleware (fst (handler C a rq rs tr)) = middleware a.
Proof.
  intros _ Hd Hs.
  destruct (handler_delegates C a rq rs tr p sub Hd)
    as (l1 & l2 & Ha & _ & _ & _ & ->).
  exists l1, l2, l1, l2, (fst (handler C sub rq (powered a rs) (tr ++ [EvDelegate p]))).
  destruct (handler_pushes C sub rq (powered a rs) (tr ++ [EvDelegate p]) Hs)
    as (Hm & Hap & _).
  simpl. auto 10.
Qed.

Lemma delegated_request_grows_mount_witness :
  exists l1 l2 l1' l2' sub',
    apps Samples.mount_app = l1 ++ ("/foo", Samples.api_app) :: l2 /\
    apps (fst (handler Samples.C Samples.mount_app (Samples.get "/foo/x")
                       Samples.fresh []))
    = l1' ++ ("/foo", sub') :: l2' /\
    map fst l1' = map fst l1 /\ map fst l2' = map fst l2 /\
    middleware sub' = middleware Samples.api_app ++ [noMatchMW Samples.api_app] /\
    apps sub' = apps Samples.api_app /\
    middleware (fst (handler Samples.C Samples.mount_app (Samples.get "/foo/x")
                             Samples.fresh []))
    = middleware Samples.mount_app.
Proof.
  apply (delegated_request_grows_mount Samples.C Samples.mount_app
           (Samples.get "/foo/x") Samples.fresh [] "/foo" Samples.api_app);
    reflexivity.
Defined.

(** X20.  The walk of a delegated request on an open response is the mounted
    application's: its entries and its Error Sink, not the parent's, for the
    whole request.  The response it starts from has been through the
    X-Powered-By step of both applications: with the header enabled on the
    parent, the mounted application's response carries it, once, whether or
    not the mounted application has it enabled. *)
Theorem delegated_walk (C : Collab) (a : App) (rq : Req) (rs : Res)
    (sched : list nat) (p : string) (sub : App) :
  writableEnded rs = false ->
  delegates a rq = Some (p, sub) -> delegates sub rq = None ->
  snd (serve C a rq rs sched)
  = run_schedule C sched
      (loopT C (first_state sub rq (powered a rs) [EvDelegate p])) /\
  mw (snd (serve C a rq rs sched)) = middleware sub ++ [noMatchMW sub] /\
  onErr (snd (serve C a rq rs sched)) = onError sub /\
  (xPoweredBy a = true ->
   res (first_state sub rq (powered a rs) [EvDelegate p])
   = setHeader "X-Powered-By" "tinyhttp" rs).
Proof.
  intros _ Hd Hs.
  assert (E : snd (serve C a rq rs sched)
              = run_schedule C sched
                  (loopT C (first_state sub rq (powered a rs) [EvDelegate p]))).
  { unfold serve. rewrite (surjective_pairing (handler C a rq rs [])). simpl snd.
    destruct (handler_delegates C a rq rs [] p sub Hd)
      as (l1 & l2 & _ & _ & _ & _ & ->).
    simpl snd. now rewrite handler_walks_first_state by exact Hs. }
  rewrite E.
  destruct (advances_trans _ _ _
              (advances_loopT C (first_state sub rq (powered a rs) [EvDelegate p]))
              (advances_run_schedule C sched
                 (loopT C (first_state sub rq (powered a rs) [EvDelegate p]))))
    as [Hm _ Ho _ _ _].
  rewrite Hm, Ho. repeat split.
  intros Hx. simpl. unfold powered. rewrite Hx.
  destruct (xPoweredBy sub); [apply setHeader_twice | reflexivity].
Qed.

Lemma delegated_walk_witness :
  snd (serve Samples.C Samples.mount_app (Samples.get "/foo/x") Samples.fresh [])
  = run_schedule Samples.C []
      (loopT Samples.C
         (first_state Samples.api_app (Samples.get "/foo/x")
            (powered Samples.mount_app Samples.fresh) [EvDelegate "/foo"])) /\
  mw (snd (serve Samples.C Samples.mount_app (Samples.get "/foo/x") Samples.fresh []))
  = middleware Samples.api_app ++ [noMatchMW Samples.api_app] /\
  onErr (snd (serve Samples.C Samples.mount_app (Samples.get "/foo/x") Samples.fresh []))
  = onError Samples.api_app /\
  (xPoweredBy Samples.mount_app = true ->
   res (first_state Samples.api_app (Samples.get "/foo/x")
          (powered Samples.mount_app Samples.fresh) [EvDelegate "/foo"])
   = setHeader "X-Powered-By" "tinyhttp" Samples.fresh).
Proof.
  apply (delegated_walk Samples.C Samples.mount_app (Samples.get "/foo/x")
           Samples.fresh [] "/foo" Samples.api_app); reflexivity.
Defined.
